(** * Frontend-Standardization template: utilities, hooks and types

    A shallow embedding of the TypeScript template files of the repository
    (the formatting utilities, the [useDebounce] and [useMediaQuery] hooks and
    the [User] interface) together with the properties the specification
    states about them.

    Conventions.
    - A JavaScript string is the list of its UTF-16 code units ([Z]).
    - A [number] that the code uses as a length, an index or a delay in
      milliseconds is an integer ([Z]); where the code computes with it
      ([formatFileSize]) it is a binary64 float.
    - An optional parameter is an [option]; [None] is [undefined], and the
      default of the signature is applied exactly where the source applies it.
    - Host services (the [Intl] formatter, the timer table of the event loop,
      the media-query lists of the browser) are explicit state or explicit
      parameters. *)

From stdpp Require Import gmap strings list.
From stdpp Require Import pretty.
From Stdlib Require Import ZArith QArith Lia.
From Stdlib Require Floats Uint63.

Local Open Scope Z_scope.

(* ===================================================================== *)
(** ** JavaScript strings *)
(* ===================================================================== *)

Module JsString.

(** UTF-16 code units. *)
Definition jsstring : Type := list Z.

(** A literal made of ASCII characters. *)
Definition js (s : string) : jsstring :=
  (λ a, Z.of_nat (Ascii.nat_of_ascii a)) <$> String.list_ascii_of_string s.

(** [s.length] *)
Definition str_length (s : jsstring) : Z := Z.of_nat (length s).

(** The clamp of ECMAScript: [min(max(x, lo), hi)]. *)
Definition clamp (x lo hi : Z) : Z := Z.min (Z.max x lo) hi.

(** [s.substring(start, end)]: both indices are clamped to [0 .. s.length]
    and swapped when [start > end]. *)
Definition substring (s : jsstring) (start end_ : Z) : jsstring :=
  let len := str_length s in
  let final_start := clamp start 0 len in
  let final_end := clamp end_ 0 len in
  let from := Z.min final_start final_end in
  let to := Z.max final_start final_end in
  take (Z.to_nat (to - from)) (drop (Z.to_nat from) s).

(** [s.slice(start)]: a negative [start] counts from the end. *)
Definition slice (s : jsstring) (start : Z) : jsstring :=
  let len := str_length s in
  let from := if start <? 0 then Z.max (len + start) 0 else Z.min start len in
  drop (Z.to_nat from) s.

(** [s.charAt(pos)]: the empty string when [pos] is out of range. *)
Definition charAt (s : jsstring) (pos : Z) : jsstring :=
  if (pos <? 0) || (str_length s <=? pos) then []
  else take 1 (drop (Z.to_nat pos) s).

(** [s.split(sep)] for a separator of one code unit.  The result is never
    empty: the empty string splits into one empty word. *)
Fixpoint split (sep : Z) (s : jsstring) : list jsstring :=
  match s with
  | [] => [[]]
  | c :: s' =>
      if decide (c = sep) then [] :: split sep s'
      else match split sep s' with
           | w :: ws => (c :: w) :: ws
           | [] => [[c]]
           end
  end.

(** [ws.join(sep)] *)
Fixpoint join (sep : jsstring) (ws : list jsstring) : jsstring :=
  match ws with
  | [] => []
  | [w] => w
  | w :: ws' => w ++ sep ++ join sep ws'
  end.

(** The code unit of the space character, the separator of [titleCase]. *)
Definition SPACE : Z := 32.

(** *** Case mapping

    [toLowerCase] and [toUpperCase] follow the Unicode default case
    conversion.  The tables below are exact for every code unit of Basic
    Latin and Latin-1 Supplement (U+0000 to U+00FF) and for the three code
    units outside that block which those map to (U+0178, U+039C, U+03BC);
    other code units are left as they are, so statements about the case
    functions are made for strings of Latin-1 code units.

    Lower case: A-Z and U+00C0..U+00DE (except the multiplication sign
    U+00D7) move up by 32.
    Upper case: a-z and U+00E0..U+00FE (except the division sign U+00F7) move
    down by 32; the micro sign U+00B5 becomes U+039C; y with diaeresis U+00FF
    becomes U+0178; sharp s U+00DF becomes the two units "SS". *)

Definition lower_unit (c : Z) : Z :=
  if (65 <=? c) && (c <=? 90) then c + 32
  else if (192 <=? c) && (c <=? 222) && negb (c =? 215) then c + 32
  else if c =? 376 then 255
  else if c =? 924 then 956
  else c.

Definition upper_units (c : Z) : jsstring :=
  if (97 <=? c) && (c <=? 122) then [c - 32]
  else if c =? 181 then [924]
  else if c =? 223 then [83; 83]
  else if (224 <=? c) && (c <=? 254) && negb (c =? 247) then [c - 32]
  else if c =? 255 then [376]
  else if c =? 956 then [924]
  else [c].

(** [s.toLowerCase()] *)
Definition toLowerCase (s : jsstring) : jsstring := lower_unit <$> s.

(** [s.toUpperCase()] *)
Definition toUpperCase (s : jsstring) : jsstring := s ≫= upper_units.

(** Code units of the Latin-1 block. *)
Definition latin1 (c : Z) : Prop := 0 <= c <= 255.

(** The sharp s, whose upper case is two code units long. *)
Definition SHARP_S : Z := 223.

End JsString.

(* ===================================================================== *)
(** ** Completions: a call returns a value or throws *)
(* ===================================================================== *)

Module Js.

Inductive js_error : Type :=
  | RangeError
  | ReferenceError
  | TypeError.

Inductive completion (A : Type) : Type :=
  | Return (a : A)
  | Throw (e : js_error).
Arguments Return {A} a.
Arguments Throw {A} e.

(** Sequencing: an exception of the first call is not caught. *)
Definition bind {A B} (c : completion A) (k : A → completion B)
  : completion B :=
  match c with
  | Return a => k a
  | Throw e => Throw e
  end.

Declare Scope js_scope.
Delimit Scope js_scope with js.
Notation "'let*' x ':=' c 'in' k" := (bind c (λ x, k))
  (at level 10, x pattern, c at level 100, k at level 200) : js_scope.

End Js.

(* ===================================================================== *)
(** ** String utilities of [lib/utils/format.ts] *)
(* ===================================================================== *)

Module Format.
Import JsString.

(** The default of the [suffix] parameter. *)
Definition DEFAULT_SUFFIX : jsstring := js "...".

(** [truncate(str, length, suffix = '...')] *)
Definition truncate (str : jsstring) (len : Z) (suffix : option jsstring)
  : jsstring :=
  let suffix := default DEFAULT_SUFFIX suffix in
  if str_length str <=? len then str
  else substring str 0 (len - str_length suffix) ++ suffix.

(** [capitalize(str)]: the empty string is falsy and returned as it is. *)
Definition capitalize (str : jsstring) : jsstring :=
  match str with
  | [] => str
  | _ => toUpperCase (charAt str 0) ++ slice str 1
  end.

(** [titleCase(str)] *)
Definition titleCase (str : jsstring) : jsstring :=
  join [SPACE] (capitalize <$> split SPACE (toLowerCase str)).

(** *** Number formatting

    [Intl.NumberFormat] belongs to the host.  It is taken as a parameter: the
    numbers, the formatter objects, the constructor (which throws a
    [RangeError] on an invalid locale tag or currency code) and the [format]
    method of a formatter. *)

(** The options object [{ style, currency }]; an absent key is [None]. *)
Record NumberFormatOptions : Type := {
  style : option jsstring;
  currency : option jsstring;
}.

Section Intl.
Import Js.
Local Open Scope js_scope.

Context {number NumberFormat : Type}.
Variable Intl_NumberFormat :
  jsstring → option NumberFormatOptions → completion NumberFormat.
Variable format : NumberFormat → number → jsstring.

(** The expression [new Intl.NumberFormat(locales, options).format(x)], as
    the specification names it. *)
Definition Intl_NumberFormat_format
    (locales : jsstring) (options : option NumberFormatOptions) (x : number)
  : completion jsstring :=
  match Intl_NumberFormat locales options with
  | Return nf => Return (format nf x)
  | Throw e => Throw e
  end.

(** [formatCurrency(amount, currency = 'USD', locale = 'en-US')] *)
Definition formatCurrency
    (amount : number) (currency locale : option jsstring)
  : completion jsstring :=
  let currency := match currency with Some c => c | None => js "USD" end in
  let locale := match locale with Some l => l | None => js "en-US" end in
  let* nf := Intl_NumberFormat locale
               (Some {| style := Some (js "currency");
                        currency := Some currency |}) in
  Return (format nf amount).

(** [formatNumber(num, locale = 'en-US')] *)
Definition formatNumber (num : number) (locale : option jsstring)
  : completion jsstring :=
  let locale := match locale with Some l => l | None => js "en-US" end in
  let* nf := Intl_NumberFormat locale None in
  Return (format nf num).

End Intl.

(** The call of the testing guide: 17 code units of the string and the
    suffix, 20 in all. *)
Example truncate_long_example :
  truncate (js "This is a very long string that should be truncated") 20 None
  = js "This is a very lo...".
Proof. reflexivity. Qed.

Example truncate_short_example : truncate (js "Short") 20 None = js "Short".
Proof. reflexivity. Qed.

Example titleCase_example :
  titleCase (js "hello  wORLD and mOre") = js "Hello  World And More".
Proof. reflexivity. Qed.

(** *** The formatters pass through to the host *)

Section IntlFacts.
Import Js.

Context {number NumberFormat : Type}.
Variable Intl_NumberFormat :
  jsstring → option NumberFormatOptions → completion NumberFormat.
Variable format : NumberFormat → number → jsstring.

(** The defaults of the signature apply exactly to the absent arguments. *)
Lemma formatCurrency_defaults amount :
  formatCurrency Intl_NumberFormat format amount None None
  = formatCurrency Intl_NumberFormat format amount
      (Some (js "USD")) (Some (js "en-US")).
Proof. reflexivity. Qed.

Lemma formatNumber_default num :
  formatNumber Intl_NumberFormat format num None
  = formatNumber Intl_NumberFormat format num (Some (js "en-US")).
Proof. reflexivity. Qed.

(** C6: for every amount, currency code (default 'USD') and locale (default
    'en-US'), [formatCurrency] returns exactly what
    [Intl.NumberFormat(locale, { style: 'currency', currency }).format(amount)]
    produces: the same string when the host returns one, and the same
    exception when the host throws; nothing is added before or after. *)
Theorem formatCurrency_pass_through amount currency locale :
  formatCurrency Intl_NumberFormat format amount currency locale
  = Intl_NumberFormat_format Intl_NumberFormat format
      (default (js "en-US") locale)
      (Some {| style := Some (js "currency");
               currency := Some (default (js "USD") currency) |})
      amount.
Proof.
  unfold formatCurrency, Intl_NumberFormat_format, bind.
  destruct currency as [c|], locale as [l|]; cbn [default];
    by destruct (Intl_NumberFormat _ _).
Qed.

(** C7: for every number and locale (default 'en-US'), [formatNumber]
    returns exactly what [Intl.NumberFormat(locale).format(num)] produces,
    the constructor being called with the locale alone. *)
Theorem formatNumber_pass_through num locale :
  formatNumber Intl_NumberFormat format num locale
  = Intl_NumberFormat_format Intl_NumberFormat format
      (default (js "en-US") locale) None num.
Proof.
  unfold formatNumber, Intl_NumberFormat_format, bind.
  destruct locale as [l|]; cbn [default];
    by destruct (Intl_NumberFormat _ _).
Qed.

End IntlFacts.

(** *** Lengths and substrings *)

Lemma str_length_nonneg (s : jsstring) : 0 <= str_length s.
Proof. unfold str_length. lia. Qed.

Lemma str_length_app (s t : jsstring) :
  str_length (s ++ t) = str_length s + str_length t.
Proof. unfold str_length. rewrite length_app. lia. Qed.

(** A prefix within range: [substring(0, n)] is the first [n] code units. *)
Lemma substring_prefix (s : jsstring) (n : Z) :
  0 <= n <= str_length s → substring s 0 n = take (Z.to_nat n) s.
Proof.
  intros Hn. pose proof (str_length_nonneg s) as Hs.
  unfold substring, clamp.
  rewrite (Z.max_l 0 0), (Z.min_l 0 (str_length s)) by lia.
  rewrite (Z.max_l n 0), (Z.min_l n (str_length s)) by lia.
  rewrite Z.min_l, Z.max_r by lia.
  by rewrite Z.sub_0_r.
Qed.

(** A negative end index clamps to [0]: the substring is empty. *)
Lemma substring_nonpos_end (s : jsstring) (n : Z) :
  n <= 0 → substring s 0 n = [].
Proof.
  intros Hn. pose proof (str_length_nonneg s) as Hs.
  unfold substring, clamp.
  rewrite (Z.max_l 0 0), (Z.min_l 0 (str_length s)) by lia.
  rewrite (Z.max_r n 0), (Z.min_l 0 (str_length s)) by lia.
  by rewrite Z.min_l, Z.max_l by lia.
Qed.

Lemma str_length_take (s : jsstring) (n : Z) :
  0 <= n <= str_length s → str_length (take (Z.to_nat n) s) = n.
Proof. unfold str_length. intros Hn. rewrite length_take. lia. Qed.

(** The two branches of [truncate]. *)
Lemma truncate_short str len suffix :
  str_length str <= len → truncate str len suffix = str.
Proof.
  intros H. unfold truncate.
  by destruct (Z.leb_spec (str_length str) len); [|lia].
Qed.

Lemma truncate_long str len suffix :
  len < str_length str →
  truncate str len suffix
  = substring str 0 (len - str_length (default DEFAULT_SUFFIX suffix))
      ++ default DEFAULT_SUFFIX suffix.
Proof.
  intros H. unfold truncate.
  by destruct (Z.leb_spec (str_length str) len); [lia|].
Qed.

(** When the string is too long and the suffix fits, the result has exactly
    the requested length: a prefix of [len - suffix.length] units and the
    suffix. *)
Lemma truncate_fits str len suffix :
  len < str_length str →
  str_length (default DEFAULT_SUFFIX suffix) <= len →
  truncate str len suffix
  = take (Z.to_nat (len - str_length (default DEFAULT_SUFFIX suffix))) str
      ++ default DEFAULT_SUFFIX suffix
  ∧ str_length (truncate str len suffix) = len.
Proof.
  intros Hlong Hfit.
  pose proof (str_length_nonneg (default DEFAULT_SUFFIX suffix)) as Hs.
  rewrite truncate_long by done.
  rewrite substring_prefix by lia.
  split; [done|].
  rewrite str_length_app, str_length_take by lia. lia.
Qed.

(** When the suffix is longer than the requested length the end index of the
    substring is negative and clamps to [0]: only the suffix is returned. *)
Lemma truncate_overflow str len suffix :
  len < str_length str →
  len < str_length (default DEFAULT_SUFFIX suffix) →
  truncate str len suffix = default DEFAULT_SUFFIX suffix.
Proof.
  intros Hlong Hover.
  rewrite truncate_long by done.
  by rewrite substring_nonpos_end by lia.
Qed.

(** C2, evaluated on the code: [truncate("abcd", 2)] is the default suffix
    ["..."] alone, three code units long, which exceeds the maximum length
    [2] that the [length] parameter is documented to be. *)
Theorem truncate_exceeds_maximum_length :
  truncate (js "abcd") 2 None = js "..."
  ∧ str_length (truncate (js "abcd") 2 None) = 3
  ∧ ¬ str_length (truncate (js "abcd") 2 None) <= 2.
Proof.
  split; [reflexivity|]. split; [reflexivity|].
  vm_compute. intros H. by apply H.
Qed.

(** C8: for a string longer than [len], the result of [truncate] has length
    exactly [len] only under the precondition [suffix.length <= len]; when
    the suffix is longer than [len] the result is the suffix alone, strictly
    longer than the requested maximum. *)
Theorem truncate_exact_length_iff_suffix_fits str len suffix :
  str_length str > len →
  (str_length (truncate str len suffix) = len
     ↔ str_length (default DEFAULT_SUFFIX suffix) <= len)
  ∧ (str_length (default DEFAULT_SUFFIX suffix) > len →
       substring str 0 (len - str_length (default DEFAULT_SUFFIX suffix)) = []
       ∧ truncate str len suffix = default DEFAULT_SUFFIX suffix
       ∧ str_length (truncate str len suffix) > len).
Proof.
  intros Hlong.
  assert (Hover : str_length (default DEFAULT_SUFFIX suffix) > len →
                  truncate str len suffix = default DEFAULT_SUFFIX suffix).
  { intros H. apply truncate_overflow; lia. }
  split.
  - split.
    + intros Hlen.
      destruct (Z_le_gt_dec (str_length (default DEFAULT_SUFFIX suffix)) len)
        as [Hle|Hgt]; [done|].
      rewrite (Hover Hgt) in Hlen. lia.
    + intros Hfit. apply truncate_fits; [lia|done].
  - intros Hgt. split; [apply substring_nonpos_end; lia|].
    split; [by apply Hover|]. by rewrite (Hover Hgt).
Qed.

(** The instance named by the claim: a maximum below 3 with the default
    suffix. *)
Lemma truncate_exact_length_iff_suffix_fits_witness :
  (str_length (truncate (js "abcd") 2 None) = 2
     ↔ str_length (default DEFAULT_SUFFIX None) <= 2)
  ∧ (str_length (default DEFAULT_SUFFIX None) > 2 →
       substring (js "abcd") 0 (2 - str_length (default DEFAULT_SUFFIX None))
       = []
       ∧ truncate (js "abcd") 2 None = default DEFAULT_SUFFIX None
       ∧ str_length (truncate (js "abcd") 2 None) > 2).
Proof.
  apply (truncate_exact_length_iff_suffix_fits (js "abcd") 2 None).
  vm_compute. reflexivity.
Defined.

(** *** Case mapping, splitting and joining *)

(** Case analysis on the comparisons of the case tables, innermost first. *)
Ltac plain_unit a :=
  lazymatch a with
  | context [Z.leb _ _] => fail
  | context [Z.eqb _ _] => fail
  | _ => idtac
  end.

Ltac unit_cases :=
  repeat (match goal with
          | |- context [Z.leb ?a ?b] =>
              plain_unit a; plain_unit b; destruct (Z.leb_spec a b)
          | |- context [Z.eqb ?a ?b] =>
              plain_unit a; plain_unit b; destruct (Z.eqb_spec a b)
          end; cbn [andb negb]).

Lemma lower_unit_idem c : lower_unit (lower_unit c) = lower_unit c.
Proof. unfold lower_unit. unit_cases; lia. Qed.

Lemma lower_unit_space c : lower_unit c = SPACE ↔ c = SPACE.
Proof. unfold lower_unit, SPACE. unit_cases; lia. Qed.

Lemma lower_unit_sharp_s c : lower_unit c = SHARP_S → c = SHARP_S.
Proof. unfold lower_unit, SHARP_S. unit_cases; lia. Qed.

(** Every code unit but the sharp s has an upper case of one unit [u], which
    capitalising its lower case gives back; it is a space only for a space. *)
Lemma upper_units_single c :
  c ≠ SHARP_S →
  ∃ u, upper_units c = [u]
       ∧ upper_units (lower_unit u) = [u]
       ∧ (u = SPACE → c = SPACE).
Proof.
  unfold SHARP_S, SPACE. intros Hc. unfold upper_units at 1.
  unit_cases; try lia;
    (eexists; split; [reflexivity|]; split; [|lia];
     unfold upper_units, lower_unit; unit_cases; first [lia | f_equal; lia]).
Qed.

Lemma toLowerCase_idem s : toLowerCase (toLowerCase s) = toLowerCase s.
Proof.
  unfold toLowerCase. rewrite <- list_fmap_compose.
  apply list_fmap_ext. intros _ c _. apply lower_unit_idem.
Qed.

Lemma toLowerCase_no_space s : SPACE ∉ s → SPACE ∉ toLowerCase s.
Proof.
  unfold toLowerCase. intros Hs [c [Hc Hin]]%list_elem_of_fmap.
  assert (c = SPACE) as Heq by (apply lower_unit_space; congruence).
  by rewrite Heq in Hin.
Qed.

Lemma toLowerCase_join ws :
  toLowerCase (join [SPACE] ws) = join [SPACE] (toLowerCase <$> ws).
Proof.
  unfold toLowerCase.
  induction ws as [|w [|w' ws] IH]; [done..|].
  change (join [SPACE] (w :: w' :: ws))
    with (w ++ [SPACE] ++ join [SPACE] (w' :: ws)).
  rewrite !fmap_app, IH. reflexivity.
Qed.

Lemma split_nonempty sep s : split sep s ≠ [].
Proof.
  destruct s as [|c s]; simpl; [done|].
  case_decide; [done|]. by destruct (split sep s).
Qed.

(** No word of a split contains the separator. *)
Lemma split_no_sep sep s : Forall (λ w, sep ∉ w) (split sep s).
Proof.
  induction s as [|c s IH]; simpl.
  - constructor; [apply not_elem_of_nil|constructor].
  - case_decide as Hc.
    + constructor; [apply not_elem_of_nil|done].
    + destruct (split sep s) as [|w ws] eqn:E; [by apply split_nonempty in E|].
      inversion_clear IH as [|? ? Hw Hws].
      constructor; [|done].
      intros [?|?]%elem_of_cons; [by subst|done].
Qed.

(** Splitting a word that does not contain the separator. *)
Lemma split_word sep w : sep ∉ w → split sep w = [w].
Proof.
  induction w as [|c w IH]; [done|]. intros Hw. simpl.
  apply not_elem_of_cons in Hw as [Hc Hw].
  case_decide; [by subst|]. by rewrite IH.
Qed.

Lemma split_app_sep sep w rest :
  sep ∉ w → split sep (w ++ sep :: rest) = w :: split sep rest.
Proof.
  induction w as [|c w IH]; intros Hw; simpl.
  - by case_decide.
  - apply not_elem_of_cons in Hw as [Hc Hw].
    case_decide; [by subst|]. by rewrite IH.
Qed.

(** [split] undoes [join] on words without the separator. *)
Lemma split_join sep ws :
  ws ≠ [] → Forall (λ w, sep ∉ w) ws → split sep (join [sep] ws) = ws.
Proof.
  induction ws as [|w [|w' ws] IH]; intros Hne Hws; [done|..].
  - inversion_clear Hws. by apply split_word.
  - inversion_clear Hws as [|? ? Hw Hrest].
    change (join [sep] (w :: w' :: ws))
      with (w ++ sep :: join [sep] (w' :: ws)).
    rewrite split_app_sep by done. by rewrite IH.
Qed.

(** Lower-casing neither creates nor removes a space, so it commutes with
    the split into words. *)
Lemma split_toLowerCase s :
  split SPACE (toLowerCase s) = toLowerCase <$> split SPACE s.
Proof.
  induction s as [|c s IH]; [done|].
  change (toLowerCase (c :: s)) with (lower_unit c :: toLowerCase s).
  simpl. rewrite IH.
  pose proof (lower_unit_space c) as Hsp.
  do 2 case_decide; try tauto.
  by destruct (split SPACE s).
Qed.

Lemma capitalize_cons c r : capitalize (c :: r) = upper_units c ++ r.
Proof.
  unfold capitalize, charAt, slice, str_length, toUpperCase.
  cbn [length].
  destruct (Z.ltb_spec 0 0); [lia|].
  destruct (Z.leb_spec (Z.of_nat (S (length r))) 0); [lia|].
  destruct (Z.ltb_spec 1 0); [lia|].
  rewrite Z.min_l by lia.
  change (Z.to_nat 0) with 0%nat. change (Z.to_nat 1) with 1%nat.
  simpl. by rewrite app_nil_r, drop_0.
Qed.

(** A word of a lower-cased string: fixed by [toLowerCase], free of spaces,
    and not beginning with the sharp s. *)
Definition stable_word (w : jsstring) : Prop :=
  toLowerCase w = w ∧ head w ≠ Some SHARP_S ∧ SPACE ∉ w.

(** Capitalising such a word, lower-casing the result and capitalising again
    gives the capitalised word back; no space appears on the way. *)
Lemma capitalize_stable w :
  stable_word w →
  capitalize (toLowerCase (capitalize w)) = capitalize w
  ∧ SPACE ∉ toLowerCase (capitalize w).
Proof.
  destruct w as [|c r]; intros (Hlow & Hhead & Hsp).
  { split; [done|apply not_elem_of_nil]. }
  apply not_elem_of_cons in Hsp as [Hc Hr].
  destruct (upper_units_single c) as (u & Hu & Hback & Hspace).
  { intros ->. by apply Hhead. }
  injection Hlow as Hlc Hlr. fold (toLowerCase r) in Hlr.
  rewrite capitalize_cons, Hu.
  change (toLowerCase ([u] ++ r)) with (lower_unit u :: toLowerCase r).
  rewrite Hlr, capitalize_cons, Hback. split; [done|].
  apply not_elem_of_cons. split; [|done].
  intros Hsp. symmetry in Hsp. apply (proj1 (lower_unit_space u)) in Hsp.
  apply Hc. symmetry. by apply Hspace.
Qed.

(** The words of a lower-cased Latin-1 string none of whose words begins
    with the sharp s. *)
Lemma split_toLowerCase_stable s :
  Forall (λ w, head w ≠ Some SHARP_S) (split SPACE s) →
  Forall stable_word (split SPACE (toLowerCase s)).
Proof.
  intros Hheads. rewrite split_toLowerCase.
  pose proof (split_no_sep SPACE s) as Hsep.
  apply Forall_fmap. revert Hheads Hsep.
  generalize (split SPACE s). intros ws.
  induction 1 as [|w ws' Hw Hws IH]; intros Hsep; [constructor|].
  inversion_clear Hsep as [|? ? Hsp Hrest].
  constructor; [|by apply IH].
  split; [apply toLowerCase_idem|]. split; [|by apply toLowerCase_no_space].
  destruct w as [|c r]; [done|]. simpl. intros [= Hc].
  apply lower_unit_sharp_s in Hc. apply Hw. simpl. by rewrite Hc.
Qed.

(** C10 as stated fails: the title case of the one-letter string "ß"
    (U+00DF) is "SS", whose title case is "Ss". *)
Lemma titleCase_not_idempotent_sharp_s :
  titleCase [SHARP_S] = js "SS"
  ∧ titleCase (titleCase [SHARP_S]) = js "Ss"
  ∧ titleCase (titleCase [SHARP_S]) ≠ titleCase [SHARP_S].
Proof.
  split; [reflexivity|]. split; [reflexivity|]. vm_compute. discriminate.
Qed.

(** C10, amended: [titleCase] is idempotent on every string of Latin-1 code
    units in which no space-separated word begins with the sharp s (U+00DF),
    the one Latin-1 letter whose upper case is longer than one code unit.
    The Latin-1 range is the one on which the case tables are exact; the
    argument itself only uses the shape of the words. *)
Theorem titleCase_idempotent_latin1 s :
  Forall latin1 s →
  Forall (λ w, head w ≠ Some SHARP_S) (split SPACE s) →
  titleCase (titleCase s) = titleCase s.
Proof.
  intros _ Hheads. unfold titleCase.
  pose proof (split_toLowerCase_stable s Hheads) as Hstable.
  pose proof (split_nonempty SPACE (toLowerCase s)) as Hne.
  revert Hstable Hne. generalize (split SPACE (toLowerCase s)).
  intros ws Hws Hne.
  rewrite toLowerCase_join, split_join.
  - f_equal. rewrite <- !list_fmap_compose.
    apply Forall_fmap_ext_1. eapply Forall_impl; [exact Hws|].
    intros w Hw. simpl. by apply capitalize_stable.
  - by destruct ws.
  - rewrite <- list_fmap_compose. apply Forall_fmap.
    eapply Forall_impl; [exact Hws|].
    intros w Hw. simpl. by apply capitalize_stable.
Qed.

Lemma titleCase_idempotent_latin1_witness :
  titleCase (titleCase (js "hello  wORLD and mOre"))
  = titleCase (js "hello  wORLD and mOre").
Proof.
  apply (titleCase_idempotent_latin1 (js "hello  wORLD and mOre")).
  - unfold latin1. vm_compute. repeat (constructor; [split; discriminate|]).
    constructor.
  - vm_compute. repeat (constructor; [discriminate|]). constructor.
Defined.

(* --------------------------------------------------------------------- *)
(** *** Further properties of [truncate] *)
(* --------------------------------------------------------------------- *)

(** X2: truncating twice is truncating once, for every string, maximum
    length and suffix: the result is either short enough to be kept or is
    the suffix alone, which a second call returns again. *)
Theorem truncate_idempotent str len suffix :
  truncate (truncate str len suffix) len suffix = truncate str len suffix.
Proof.
  destruct (Z_le_gt_dec (str_length str) len) as [Hshort|Hlong].
  { rewrite (truncate_short str len suffix) by done.
    by apply truncate_short. }
  destruct (Z_le_gt_dec (str_length (default DEFAULT_SUFFIX suffix)) len)
    as [Hfit|Hover].
  - apply truncate_short.
    destruct (truncate_fits str len suffix) as [_ ->]; lia.
  - rewrite (truncate_overflow str len suffix) by lia.
    apply truncate_overflow; lia.
Qed.

(** X3: the result of [truncate] is never longer than the larger of the
    maximum length and the suffix, and it is made of the string alone: it is
    the string itself, or a prefix of the string followed by the suffix. *)
Theorem truncate_bounded_prefix str len suffix :
  str_length (truncate str len suffix)
    <= Z.max len (str_length (default DEFAULT_SUFFIX suffix))
  ∧ (truncate str len suffix = str
     ∨ ∃ kept, kept `prefix_of` str
               ∧ str_length kept = Z.max 0
                   (len - str_length (default DEFAULT_SUFFIX suffix))
               ∧ truncate str len suffix
                 = kept ++ default DEFAULT_SUFFIX suffix).
Proof.
  pose proof (str_length_nonneg (default DEFAULT_SUFFIX suffix)) as Hs.
  destruct (Z_le_gt_dec (str_length str) len) as [Hshort|Hlong].
  { rewrite truncate_short by done. split; [lia|by left]. }
  destruct (Z_le_gt_dec (str_length (default DEFAULT_SUFFIX suffix)) len)
    as [Hfit|Hover].
  - destruct (truncate_fits str len suffix) as [Heq Hlen]; [lia|done|].
    split; [lia|]. right.
    exists (take (Z.to_nat
                    (len - str_length (default DEFAULT_SUFFIX suffix))) str).
    split; [apply prefix_take|].
    split; [rewrite str_length_take; lia|done].
  - rewrite (truncate_overflow str len suffix) by lia.
    split; [lia|]. right. exists [].
    split; [apply prefix_nil|].
    split; [change (str_length []) with 0; lia|done].
Qed.

(* --------------------------------------------------------------------- *)
(** *** Further properties of [capitalize] and [titleCase] *)
(* --------------------------------------------------------------------- *)

(** The upper case of a code unit begins with a unit that is its own upper
    case. *)
Lemma upper_units_head c :
  ∃ u rest, upper_units c = u :: rest ∧ upper_units u = [u].
Proof.
  unfold upper_units at 1. unit_cases;
    (eexists _, _; split; [reflexivity|];
     unfold upper_units; unit_cases; first [lia | f_equal; lia]).
Qed.

(** The upper case of a code unit is one unit long, two for the sharp s. *)
Lemma upper_units_length c :
  length (upper_units c) = if decide (c = SHARP_S) then 2%nat else 1%nat.
Proof.
  unfold SHARP_S. case_decide as Hc.
  - by rewrite Hc.
  - unfold upper_units. unit_cases; first [done | lia].
Qed.

Lemma upper_units_no_space c : c ≠ SPACE → SPACE ∉ upper_units c.
Proof.
  unfold SPACE. intros Hc. unfold upper_units.
  unit_cases; rewrite ?elem_of_cons, elem_of_nil; lia.
Qed.

Lemma capitalize_no_space w : SPACE ∉ w → SPACE ∉ capitalize w.
Proof.
  destruct w as [|c r]; [done|]. rewrite capitalize_cons.
  intros [Hc Hr]%not_elem_of_cons. rewrite elem_of_app.
  intros [Hin|Hin]; [|done].
  by apply (upper_units_no_space c).
Qed.

(** X4: capitalising twice is capitalising once, for every string of
    Latin-1 code units (the sharp s included: "ß..." becomes "SS...", which
    is capitalised already). *)
Theorem capitalize_idempotent s :
  Forall latin1 s → capitalize (capitalize s) = capitalize s.
Proof.
  intros _. destruct s as [|c r]; [done|].
  rewrite capitalize_cons.
  destruct (upper_units_head c) as (u & rest & -> & Hu).
  change ((u :: rest) ++ r) with (u :: (rest ++ r)).
  by rewrite capitalize_cons, Hu.
Qed.

Lemma capitalize_idempotent_witness :
  capitalize (capitalize (SHARP_S :: js "eta"))
  = capitalize (SHARP_S :: js "eta").
Proof.
  apply capitalize_idempotent.
  unfold latin1. vm_compute. repeat (constructor; [split; discriminate|]).
  constructor.
Defined.

(** [split] and [join] are inverse to each other on every string. *)
Lemma join_split sep s : join [sep] (split sep s) = s.
Proof.
  induction s as [|c s IH]; [done|]. simpl.
  pose proof (split_nonempty sep s) as Hne.
  destruct (split sep s) as [|w ws]; [done|].
  case_decide as Hc.
  - subst c. change (join [sep] ([] :: w :: ws))
      with (sep :: join [sep] (w :: ws)). by rewrite IH.
  - destruct ws as [|w' ws].
    + simpl in *. by rewrite IH.
    + change (join [sep] ((c :: w) :: w' :: ws))
        with (c :: (w ++ [sep] ++ join [sep] (w' :: ws))).
      f_equal. exact IH.
Qed.

(** The code units of all words together. *)
Definition total_length (ws : list jsstring) : nat :=
  foldr (λ w n, (length w + n)%nat) 0%nat ws.

(** Joining puts one separator between neighbours. *)
Lemma length_join sep ws :
  ws ≠ [] →
  (length (join [sep] ws) + 1 = total_length ws + length ws)%nat.
Proof.
  induction ws as [|w [|w' ws] IH]; intros Hne; [done|cbn; lia|].
  change (join [sep] (w :: w' :: ws))
    with (w ++ [sep] ++ join [sep] (w' :: ws)).
  rewrite !length_app.
  change (total_length (w :: w' :: ws))
    with (length w + total_length (w' :: ws))%nat.
  specialize (IH ltac:(done)). cbn [length] in *. lia.
Qed.

(** The words that begin with the sharp s. *)
Definition sharp_s_words (ws : list jsstring) : list jsstring :=
  filter (λ w, head w = Some SHARP_S) ws.

Lemma length_capitalize_toLowerCase w :
  length (capitalize (toLowerCase w))
  = (length w + if decide (head w = Some SHARP_S) then 1 else 0)%nat.
Proof.
  destruct w as [|c r]; [done|].
  change (toLowerCase (c :: r)) with (lower_unit c :: toLowerCase r).
  rewrite capitalize_cons, length_app, upper_units_length.
  unfold toLowerCase. rewrite length_fmap. cbn [head length].
  assert (lower_unit c = SHARP_S ↔ c = SHARP_S) as Hiff.
  { split; [apply lower_unit_sharp_s|by intros ->]. }
  do 2 case_decide; try lia.
  - exfalso. apply H0. f_equal. tauto.
  - exfalso. apply H. injection H0 as H0. tauto.
Qed.

Lemma total_length_titleCase_words ws :
  total_length (capitalize <$> (toLowerCase <$> ws))
  = (total_length ws + length (sharp_s_words ws))%nat.
Proof.
  induction ws as [|w ws IH]; [done|].
  cbn [fmap list_fmap total_length foldr]. fold (total_length ws).
  fold (total_length (capitalize <$> (toLowerCase <$> ws))).
  rewrite IH, length_capitalize_toLowerCase.
  unfold sharp_s_words. rewrite filter_cons.
  unfold jsstring in *. case_decide; cbn [length]; lia.
Qed.

(** The words of the title case are the capitalised lower-cased words. *)
Lemma split_titleCase s :
  split SPACE (titleCase s)
  = capitalize <$> (toLowerCase <$> split SPACE s).
Proof.
  unfold titleCase. rewrite split_toLowerCase.
  pose proof (split_nonempty SPACE s) as Hne.
  pose proof (split_no_sep SPACE s) as Hsep.
  apply split_join.
  - by destruct (split SPACE s).
  - rewrite <- list_fmap_compose. apply Forall_fmap.
    eapply Forall_impl; [exact Hsep|].
    intros w Hw. cbn. by apply capitalize_no_space, toLowerCase_no_space.
Qed.

(** X5: on a string of Latin-1 code units [titleCase] keeps the number of
    words (every space stays a space and none is added) and lengthens the
    string by exactly one code unit for each word that begins with the sharp
    s; without such a word the length is unchanged. *)
Theorem titleCase_length s :
  Forall latin1 s →
  length (split SPACE (titleCase s)) = length (split SPACE s)
  ∧ str_length (titleCase s)
    = str_length s + Z.of_nat (length (sharp_s_words (split SPACE s))).
Proof.
  intros _. rewrite split_titleCase, !length_fmap. split; [done|].
  pose proof (split_nonempty SPACE s) as Hne.
  pose proof (length_join SPACE (split SPACE s) Hne) as Hs.
  rewrite join_split in Hs.
  assert (split SPACE (titleCase s) ≠ []) as Hne' by apply split_nonempty.
  pose proof (length_join SPACE (split SPACE (titleCase s)) Hne') as Ht.
  rewrite join_split in Ht.
  rewrite split_titleCase, total_length_titleCase_words, !length_fmap in Ht.
  unfold str_length. lia.
Qed.

Lemma titleCase_length_witness :
  length (split SPACE (titleCase (js "gro" ++ SHARP_S :: js "e " ++
                                   SHARP_S :: js "eta")))
  = length (split SPACE (js "gro" ++ SHARP_S :: js "e " ++
                          SHARP_S :: js "eta"))
  ∧ str_length (titleCase (js "gro" ++ SHARP_S :: js "e " ++
                            SHARP_S :: js "eta"))
    = str_length (js "gro" ++ SHARP_S :: js "e " ++ SHARP_S :: js "eta")
      + Z.of_nat (length (sharp_s_words
                            (split SPACE (js "gro" ++ SHARP_S :: js "e " ++
                                          SHARP_S :: js "eta")))).
Proof.
  apply titleCase_length.
  unfold latin1. vm_compute. repeat (constructor; [split; discriminate|]).
  constructor.
Defined.

(** Code units of Basic Latin. *)
Definition ascii (c : Z) : Prop := 0 <= c < 128.

Lemma toLowerCase_toUpperCase_ascii s :
  Forall ascii s → toLowerCase (toUpperCase s) = toLowerCase s.
Proof.
  unfold toLowerCase, toUpperCase, ascii.
  induction 1 as [|c s Hc Hs IH]; [done|].
  cbn [mbind list_bind fmap list_fmap]. rewrite fmap_app.
  change (list_bind Z Z upper_units s) with (s ≫= upper_units).
  change (list_fmap Z Z lower_unit s) with (lower_unit <$> s).
  rewrite IH. change (lower_unit c :: (lower_unit <$> s))
    with ([lower_unit c] ++ (lower_unit <$> s)).
  f_equal. unfold upper_units. unit_cases; try lia;
    cbn [fmap list_fmap]; unfold lower_unit; unit_cases;
    first [lia | f_equal; lia].
Qed.

(** X6: on a string of ASCII code units the title case does not depend on
    the case of the input: upper-casing or lower-casing the input first
    gives the same result. *)
Theorem titleCase_ignores_case_ascii s :
  Forall ascii s →
  titleCase (toUpperCase s) = titleCase s
  ∧ titleCase (toLowerCase s) = titleCase s.
Proof.
  intros Hs. unfold titleCase.
  by rewrite toLowerCase_toUpperCase_ascii, toLowerCase_idem.
Qed.

Lemma titleCase_ignores_case_ascii_witness :
  titleCase (toUpperCase (js "hello wORLD")) = titleCase (js "hello wORLD")
  ∧ titleCase (toLowerCase (js "hello wORLD")) = titleCase (js "hello wORLD").
Proof.
  apply titleCase_ignores_case_ascii.
  unfold ascii. vm_compute.
  repeat (constructor; [split; [discriminate|reflexivity]|]).
  constructor.
Defined.

End Format.

(* ===================================================================== *)
(** ** [formatFileSize] of [lib/utils/format.ts] *)
(* ===================================================================== *)

Module FileSize.
Import JsString.
Import PrimFloat SpecFloat FloatOps.

(** A [number] is a binary64 float. *)

(** The float of a non-negative integer below [2^53] (exact). *)
Definition float_of_Z (n : Z) : float := of_uint63 (Uint63.of_Z n).

(** [Math.floor(x)], which is exact: a float whose exponent is not negative
    is an integer already; otherwise the mantissa is shifted, and rounded
    away from zero for a negative [x] that is not an integer.  Zeros,
    infinities and NaN are returned as they are. *)
Definition Math_floor (x : float) : float :=
  match Prim2SF x with
  | S754_finite s m e =>
      if (0 <=? e)%Z then x
      else
        let n := Z.shiftr (Z.pos m) (- e) in
        let whole := (Z.shiftl n (- e) =? Z.pos m)%Z in
        if s then (- float_of_Z (if whole then n else n + 1))%float
        else float_of_Z n
  | _ => x
  end.

(** The integer a float is, if it is one. *)
Definition integer_value (x : float) : option Z :=
  match Prim2SF x with
  | S754_zero _ => Some 0
  | S754_finite s m e =>
      let magnitude :=
        if (0 <=? e)%Z then Some (Z.shiftl (Z.pos m) e)
        else
          let n := Z.shiftr (Z.pos m) (- e) in
          if (Z.shiftl n (- e) =? Z.pos m)%Z then Some n else None in
      (λ n, if s then - n else n) <$> magnitude
  | _ => None
  end.

(** [array[i]]: the element at an index within the array, [undefined]
    ([None]) for every other number. *)
Definition array_get {A} (array : list A) (i : float) : option A :=
  n ← integer_value i;
  if (0 <=? n)%Z && (n <? Z.of_nat (length array))%Z
  then array !! Z.to_nat n else None.

Definition k : float := 1024%float.

Definition sizes : list jsstring :=
  [js "Bytes"; js "KB"; js "MB"; js "GB"; js "TB"].

Section Host.

(** The host: [Math.log] and [Math.pow], which are
    implementation-approximated, and the text of
    [parseFloat(x.toFixed(2))] in a template literal. *)
Variable Math_log : float → float.
Variable Math_pow : float → float → float.
Variable number_text : float → jsstring.

(** [Math.floor(Math.log(bytes) / Math.log(k))] *)
Definition unit_index (bytes : float) : float :=
  Math_floor (Math_log bytes / Math_log k).

(** [formatFileSize(bytes)]; an [undefined] unit prints as "undefined". *)
Definition formatFileSize (bytes : float) : jsstring :=
  if (bytes =? 0)%float then js "0 Bytes"
  else
    let i := unit_index bytes in
    number_text (bytes / Math_pow k i)
      ++ js " " ++ default (js "undefined") (array_get sizes i).

End Host.

(** A logarithm that is correctly rounded at the arguments used below:
    [ln 1024] and [ln (1024^5 - 1)], which rounds to the same float as
    [ln (1024^5)].  Other arguments are not tabulated. *)
Definition log_rounded (x : float) : float :=
  if (x =? 1024)%float then 0x1.bb9d3beb8c86bp+2%float
  else if (x =? 1125899906842623)%float then 0x1.1542457337d43p+5%float
  else if (x =? 1125899906842624)%float then 0x1.1542457337d43p+5%float
  else nan.

Example Math_floor_examples :
  Math_floor 4.75 = 4%float
  ∧ Math_floor (-0.5) = (-1)%float
  ∧ Math_floor (-3) = (-3)%float
  ∧ Math_floor 0.25 = 0%float
  ∧ Math_floor 0x1p+1000 = 0x1p+1000%float.
Proof. by vm_compute. Qed.

Example array_get_examples :
  array_get sizes 4 = Some (js "TB")
  ∧ array_get sizes (-0) = Some (js "Bytes")
  ∧ array_get sizes 5 = None
  ∧ array_get sizes (-1) = None
  ∧ array_get sizes 1.5 = None
  ∧ array_get sizes nan = None
  ∧ array_get sizes 0x1p+1000 = None.
Proof. by vm_compute. Qed.

(** [formatFileSize(0)] is "0 Bytes", on every host. *)
Lemma formatFileSize_zero Math_log Math_pow number_text :
  formatFileSize Math_log Math_pow number_text 0 = js "0 Bytes"
  ∧ formatFileSize Math_log Math_pow number_text (-0) = js "0 Bytes".
Proof. by split. Qed.

Lemma Prim2SF_nan_div y : Prim2SF (nan / y) = S754_nan.
Proof. by rewrite FloatAxioms.div_spec. Qed.

(** Where the logarithm is NaN, as [Math.log] is for a negative number, the
    index is NaN and the unit is [undefined]. *)
Lemma unit_undefined_of_nan_log Math_log bytes :
  Math_log bytes = nan →
  array_get sizes (unit_index Math_log bytes) = None.
Proof.
  intros Hlog. unfold unit_index, array_get, integer_value, Math_floor.
  by rewrite Hlog, !Prim2SF_nan_div.
Qed.

(** C9, on the code: with a correctly rounded logarithm the quotient
    [Math.log(bytes) / Math.log(1024)] is exactly 5 for
    [bytes = 1024^5 - 1], as it is for [1024^5]: the index is 5, outside the
    five units, and the result ends in the text "undefined". *)
Theorem formatFileSize_undefined_unit_below_1024_pow_5 :
  (1 <=? 1125899906842623)%float = true
  ∧ (1125899906842623 <? 1125899906842624)%float = true
  ∧ (log_rounded 1125899906842623 / log_rounded k)%float = 5%float
  ∧ unit_index log_rounded 1125899906842623 = 5%float
  ∧ array_get sizes (unit_index log_rounded 1125899906842623) = None
  ∧ ∀ Math_pow number_text,
      formatFileSize log_rounded Math_pow number_text 1125899906842623
      = number_text (1125899906842623 / Math_pow 1024 5)%float
          ++ js " undefined".
Proof. by vm_compute. Qed.

End FileSize.

(* ===================================================================== *)
(** ** The [User] interface of [types/index.ts] *)
(* ===================================================================== *)

Module Types.
Import JsString.

(** ['user' | 'admin'] *)
Inductive Role : Type :=
  | user
  | admin.

(** A [Date], by its time value in milliseconds. *)
Definition Date : Type := Z.

(** [interface User], as a record of its declared properties; the optional
    property [image?] is an [option]. *)
Record User : Type := {
  id : jsstring;
  name : jsstring;
  email : jsstring;
  image : option jsstring;
  role : Role;
  createdAt : Date;
  updatedAt : Date;
}.

(** Property values of objects. *)
Inductive value : Type :=
  | VString (s : jsstring)
  | VDate (d : Date)
  | VNumber (n : Z)
  | VBoolean (b : bool)
  | VUndefined.

Definition Role_literal (r : Role) : jsstring :=
  match r with
  | user => js "user"
  | admin => js "admin"
  end.

(** The object with the declared properties of a [User] and no others: a
    map from property names to values, where an absent optional property
    has no key. *)
Definition User_object (u : User) : gmap string value :=
  let required : gmap string value :=
    <["id" := VString (id u)]>
    (<["name" := VString (name u)]>
    (<["email" := VString (email u)]>
    (<["role" := VString (Role_literal (role u))]>
    (<["createdAt" := VDate (createdAt u)]>
    (<["updatedAt" := VDate (updatedAt u)]> ∅))))) in
  match image u with
  | Some i => <["image" := VString i]> required
  | None => required
  end.

(** The properties every [User] must have. *)
Definition User_required : gset string :=
  {[ "id"; "name"; "email"; "role"; "createdAt"; "updatedAt" ]}.

(** The optional property. *)
Definition User_optional : gset string := {[ "image" ]}.

(** A user with a profile picture. *)
Definition user_with_image : User :=
  {| id := js "u1"; name := js "Ada"; email := js "ada@example.com";
     image := Some (js "/ada.png"); role := admin;
     createdAt := 0; updatedAt := 0 |}.

(** *** Values of type [User]

    An interface is a structural, open type: an object is a [User] when
    each required property is there with a value of its type and the
    optional property, when there, holds a string (or [undefined]).
    Properties that the interface does not declare are not looked at. *)

Definition is_string (v : value) : bool :=
  match v with VString _ => true | _ => false end.

Definition is_date (v : value) : bool :=
  match v with VDate _ => true | _ => false end.

Definition is_role (v : value) : bool :=
  match v with
  | VString s => bool_decide (s = js "user") || bool_decide (s = js "admin")
  | _ => false
  end.

Definition is_string_or_undefined (v : value) : bool :=
  match v with VString _ | VUndefined => true | _ => false end.

(** A required property [k] of type [p]. *)
Definition required_is (p : value → bool) (o : gmap string value)
    (k : string) : bool :=
  match o !! k with Some v => p v | None => false end.

(** An optional property [k] of type [p]. *)
Definition optional_is (p : value → bool) (o : gmap string value)
    (k : string) : bool :=
  match o !! k with Some v => p v | None => true end.

Definition is_User (o : gmap string value) : bool :=
  required_is is_string o "id"
  && required_is is_string o "name"
  && required_is is_string o "email"
  && optional_is is_string_or_undefined o "image"
  && required_is is_role o "role"
  && required_is is_date o "createdAt"
  && required_is is_date o "updatedAt".

(** A user object that also carries a property the interface does not
    declare. *)
Definition user_with_nickname : gmap string value :=
  <["nickname" := VString (js "ada")]> (User_object user_with_image).

Lemma User_object_dom u :
  dom (User_object u)
  = match image u with
    | Some _ => User_required ∪ User_optional
    | None => User_required
    end.
Proof.
  unfold User_object, User_required, User_optional.
  destruct (image u); rewrite !dom_insert_L, dom_empty_L; set_solver.
Qed.

(** C5 as stated fails: a [User] may carry the optional property [image],
    which is not among id, name, email, role, createdAt and updatedAt. *)
Lemma User_image_outside_listed_fields :
  "image" ∈ dom (User_object user_with_image)
  ∧ ("image" ∉ User_required)
  ∧ (dom (User_object user_with_image) ≠ User_required).
Proof.
  rewrite User_object_dom. simpl.
  assert ("image" ∉ User_required) as Hnot.
  { unfold User_required. set_solver. }
  split; [unfold User_optional; set_solver|]. split; [done|].
  intros Heq. apply Hnot. rewrite <- Heq. unfold User_optional. set_solver.
Qed.

(** The record of the declared properties gives a value of the type. *)
Lemma User_object_is_User u : is_User (User_object u) = true.
Proof.
  unfold is_User, required_is, optional_is, User_object.
  destruct (image u), (role u); by simplify_map_eq.
Qed.

(** What [is_User] looks at. *)
Lemma is_User_spec o :
  is_User o = true ↔
  required_is is_string o "id" = true
  ∧ required_is is_string o "name" = true
  ∧ required_is is_string o "email" = true
  ∧ optional_is is_string_or_undefined o "image" = true
  ∧ required_is is_role o "role" = true
  ∧ required_is is_date o "createdAt" = true
  ∧ required_is is_date o "updatedAt" = true.
Proof. unfold is_User. rewrite !andb_true_iff. tauto. Qed.

Lemma required_is_Some p o k :
  required_is p o k = true → ∃ v, o !! k = Some v ∧ p v = true.
Proof. unfold required_is. destruct (o !! k); [eauto|done]. Qed.

Lemma required_is_delete p o k : required_is p (delete k o) k = false.
Proof. unfold required_is. by rewrite lookup_delete_eq. Qed.

Lemma required_is_other p o k (o' : gmap string value) :
  o' !! k = o !! k → required_is p o' k = required_is p o k.
Proof. unfold required_is. by intros ->. Qed.

(** C5, amended: every value of type [User] has the properties id, name,
    email, role, createdAt and updatedAt, its role being 'user' or 'admin';
    the property image is optional (a string when given: removing it
    leaves a [User], removing a required property does not); and the
    interface is open: a property outside the seven declared ones may be
    added with any value. *)
Theorem User_fields o :
  is_User o = true →
  User_required ⊆ dom o
  ∧ (o !! "role" = Some (VString (js "user"))
     ∨ o !! "role" = Some (VString (js "admin")))
  ∧ (∀ v, o !! "image" = Some v → v = VUndefined ∨ ∃ s, v = VString s)
  ∧ is_User (delete "image" o) = true
  ∧ (∀ k, k ∈ User_required → is_User (delete k o) = false)
  ∧ (∀ k v, k ∉ User_required ∪ User_optional →
            is_User (<[k := v]> o) = true).
Proof.
  intros Huser. pose proof Huser as Hspec.
  apply is_User_spec in Hspec
    as (Hid & Hname & Hemail & Himage & Hrole & Hcreated & Hupdated).
  split; [|split; [|split; [|split; [|split]]]].
  - unfold User_required. intros k Hk. apply elem_of_dom.
    set_unfold in Hk.
    destruct Hk as [[[[[->| ->]| ->]| ->]| ->]| ->];
      match goal with
      | |- is_Some (_ !! ?k) =>
          match goal with
          | H : required_is _ o k = true |- _ =>
              apply required_is_Some in H as (v & -> & _); by eexists
          end
      end.
  - apply required_is_Some in Hrole as (v & Hv & Hr). rewrite Hv.
    destruct v as [s| | | |]; try done. cbn in Hr.
    apply orb_true_iff in Hr as [Hs|Hs]; apply bool_decide_eq_true in Hs;
      subst s; auto.
  - intros v Hv. unfold optional_is in Himage. rewrite Hv in Himage.
    destruct v; try done; eauto.
  - apply is_User_spec. unfold optional_is. rewrite lookup_delete_eq.
    repeat split; try done;
      (erewrite required_is_other; [eassumption|by apply lookup_delete_ne]).
  - unfold User_required. intros k Hk. set_unfold in Hk.
    apply not_true_is_false. intros Hdel. apply is_User_spec in Hdel.
    destruct Hdel as (Hid' & Hname' & Hemail' & _ & Hrole' & Hc' & Hu').
    destruct Hk as [[[[[->| ->]| ->]| ->]| ->]| ->];
      by rewrite required_is_delete in *.
  - intros k v Hk. unfold User_required, User_optional in Hk.
    apply is_User_spec. unfold optional_is.
    rewrite lookup_insert_ne by (intros ->; set_solver).
    repeat split; try done;
      (erewrite required_is_other;
       [eassumption|apply lookup_insert_ne; intros ->; set_solver]).
Qed.

Lemma User_fields_witness :
  is_User user_with_nickname = true
  ∧ ("nickname" ∉ User_required ∪ User_optional)
  ∧ User_required ⊆ dom user_with_nickname
  ∧ is_User (delete "image" user_with_nickname) = true
  ∧ is_User (delete "email" user_with_nickname) = false.
Proof.
  assert (is_User user_with_nickname = true) as Huser by reflexivity.
  destruct (User_fields user_with_nickname Huser)
    as (Hdom & _ & _ & Himage & Hrequired & _).
  split; [done|].
  split; [unfold User_required, User_optional; set_solver|].
  split; [done|]. split; [done|].
  apply Hrequired. unfold User_required. set_solver.
Defined.

End Types.

(* ===================================================================== *)
(** ** [useMediaQuery] of [hooks/useMediaQuery.ts] *)
(* ===================================================================== *)

Module MediaQuery.
Import JsString Js.
Local Open Scope js_scope.

(** A registered event listener: the event type and the identity of the
    callback (closures are compared by identity). *)
Definition listener : Type := (jsstring * nat)%type.

(** A [MediaQueryList] object. *)
Record MediaQueryList : Type := {
  media : jsstring;
  matches : bool;
  listeners : list listener;
}.

(** The global [window].  [matchMedia] is absent from a window that does not
    implement it; when present it evaluates a query against the viewport. *)
Record Window : Type := {
  matchMedia : option (jsstring → bool);
}.

(** The realm the hook runs in: the global [window] (absent outside a
    browser), the media-query lists that have been created, by reference,
    and the next closure identity. *)
Record realm : Type := {
  window : option Window;
  heap : gmap nat MediaQueryList;
  next_closure : nat;
}.

Definition with_window (w : option Window) (r : realm) : realm :=
  {| window := w; heap := heap r; next_closure := next_closure r |}.

Definition with_heap (h : gmap nat MediaQueryList) (r : realm) : realm :=
  {| window := window r; heap := h; next_closure := next_closure r |}.

(** The event type the hook listens to. *)
Definition CHANGE : jsstring := js "change".

(** [window.matchMedia(query)]: a [ReferenceError] when [window] is not
    defined, a [TypeError] when [matchMedia] is not a function; otherwise a
    new [MediaQueryList] without listeners, returned by reference. *)
Definition window_matchMedia (r : realm) (query : jsstring)
  : completion (realm * nat) :=
  match window r with
  | None => Throw ReferenceError
  | Some w =>
      match matchMedia w with
      | None => Throw TypeError
      | Some eval =>
          let ref := fresh (dom (heap r)) in
          let mql := {| media := query; matches := eval query;
                        listeners := [] |} in
          Return (with_heap (<[ref := mql]> (heap r)) r, ref)
      end
  end.

(** [target.addEventListener(type, callback)]: appended unless the same type
    and callback are registered already. *)
Definition addEventListener (r : realm) (target : nat) (l : listener)
  : realm :=
  with_heap
    (alter (λ m, {| media := media m; matches := matches m;
                    listeners := if decide (l ∈ listeners m)
                                 then listeners m
                                 else listeners m ++ [l] |})
           target (heap r)) r.

(** [target.removeEventListener(type, callback)] *)
Definition removeEventListener (r : realm) (target : nat) (l : listener)
  : realm :=
  with_heap
    (alter (λ m, {| media := media m; matches := matches m;
                    listeners := filter (λ l', l' ≠ l) (listeners m) |})
           target (heap r)) r.

(** What running the effect leaves behind: the call [setMatches(v)] it made,
    if any, and the cleanup closure, which captures the media-query list and
    the listener. *)
Record effect_result : Type := {
  setMatches : option bool;
  cleanup_media : nat;
  cleanup_listener : listener;
}.

(** The effect body of [useMediaQuery(query)], run with the current state
    [matches]. *)
Definition effect (r : realm) (query : jsstring) (matches_state : bool)
  : completion (realm * effect_result) :=
  let* (r, media_ref) := window_matchMedia r query in
  let media_matches :=
    match heap r !! media_ref with
    | Some m => matches m
    | None => false
    end in
  let set :=
    if decide (media_matches ≠ matches_state) then Some media_matches
    else None in
  let l : listener := (CHANGE, next_closure r) in
  let r := {| window := window r; heap := heap r;
              next_closure := S (next_closure r) |} in
  let r := addEventListener r media_ref l in
  Return (r, {| setMatches := set; cleanup_media := media_ref;
                cleanup_listener := l |}).

(** The cleanup closure returned by the effect. *)
Definition cleanup (r : realm) (e : effect_result) : realm :=
  removeEventListener r (cleanup_media e) (cleanup_listener e).

(** A mounted instance of the hook: the state cell [matches], the
    dependency array [matches, query] of the last effect, and what that
    effect left behind. *)
Record instance : Type := {
  matches_state : bool;
  deps : bool * jsstring;
  last_effect : effect_result;
}.

(** Running the effect for a render that read the state [matches_state]:
    a call of [setMatches] made by the effect updates the state cell. *)
Definition run_effect (r : realm) (query : jsstring) (matches_state : bool)
  : completion (realm * instance) :=
  let* (r, e) := effect r query matches_state in
  Return (r, {| matches_state := default matches_state (setMatches e);
                deps := (matches_state, query);
                last_effect := e |}).

(** A render of [useMediaQuery(query)] by a renderer that commits effects
    (a browser), and the effects it commits: the state starts at [false];
    the effect runs after the first render and whenever [matches] or
    [query] changed, after the previous cleanup.  The render itself returns
    the state and does not touch [window].  A server renderer only returns
    the state and runs no effect; it is not what this function models. *)
Definition render (r : realm) (i : option instance) (query : jsstring)
  : bool * completion (realm * instance) :=
  match i with
  | None => (false, run_effect r query false)
  | Some i =>
      (matches_state i,
       if decide (deps i = (matches_state i, query)) then Return (r, i)
       else run_effect (cleanup r (last_effect i)) query (matches_state i))
  end.

(** Renders with the given queries, one after the other. *)
Fixpoint renders (r : realm) (i : instance) (queries : list jsstring)
  : completion (realm * instance) :=
  match queries with
  | [] => Return (r, i)
  | q :: queries' =>
      let* (r, i) := (render r (Some i) q).2 in
      renders r i queries'
  end.

(** Unmounting runs the cleanup of the last effect. *)
Definition unmount (r : realm) (i : instance) : realm :=
  cleanup r (last_effect i).

(** A browser window whose viewport matches every query, with no
    media-query list created yet. *)
Definition demo_realm : realm :=
  {| window := Some {| matchMedia := Some (λ _, true) |};
     heap := ∅; next_closure := 0 |}.

(** The query of [useIsMobile]. *)
Definition MOBILE_QUERY : jsstring := js "(max-width: 768px)".

(** *** What the effect does when the browser API is there *)

(** The effect creates one media-query list, registers one listener for
    'change' on it, and calls [setMatches] when the state is stale. *)
Lemma effect_in_browser r f query m :
  window r = Some {| matchMedia := Some f |} →
  effect r query m
  = Return
      ({| window := window r;
          heap := <[fresh (dom (heap r)) :=
                      {| media := query; matches := f query;
                         listeners := [(CHANGE, next_closure r)] |}]>
                  (heap r);
          next_closure := S (next_closure r) |},
       {| setMatches := if decide (f query ≠ m) then Some (f query) else None;
          cleanup_media := fresh (dom (heap r));
          cleanup_listener := (CHANGE, next_closure r) |}).
Proof.
  intros Hw. unfold effect, window_matchMedia. rewrite Hw. cbn -[CHANGE].
  rewrite lookup_insert_eq. cbn -[CHANGE].
  unfold addEventListener, with_heap. cbn -[CHANGE].
  rewrite alter_insert_eq. cbn -[CHANGE].
  case_decide as Hin; [by apply elem_of_nil in Hin|]. by rewrite Hw.
Qed.

(** The effect returns only where [window.matchMedia] exists. *)
Lemma effect_returns_in_browser r query m out :
  effect r query m = Return out →
  ∃ f, window r = Some {| matchMedia := Some f |}.
Proof.
  unfold effect, window_matchMedia.
  destruct (window r) as [[[f|]]|]; cbn; [eauto|done..].
Qed.

Lemma fresh_ref_unused (h : gmap nat MediaQueryList) :
  h !! fresh (dom h) = None.
Proof. apply not_elem_of_dom, is_fresh. Qed.

(** [removeEventListener] takes the listener out of the target and touches
    nothing else. *)
Lemma removeEventListener_heap r target l m :
  heap r !! target = Some m →
  heap (removeEventListener r target l)
  = <[target := {| media := media m; matches := matches m;
                   listeners := filter (λ l', l' ≠ l) (listeners m) |}]>
      (heap r).
Proof.
  intros Hm. unfold removeEventListener, with_heap. cbn.
  apply map_eq. intros k. destruct (decide (k = target)) as [->|Hne].
  - by rewrite lookup_alter_eq, lookup_insert_eq, Hm.
  - by rewrite lookup_alter_ne, lookup_insert_ne.
Qed.

Lemma filter_remove_absent (l : listener) (ls : list listener) :
  l ∉ filter (λ l', l' ≠ l) ls.
Proof. rewrite list_elem_of_filter. by intros [Hne _]. Qed.

(** The list of an effect is new, holds the listener of the effect alone,
    and the other lists are untouched. *)
Lemma effect_creates_one_subscription
    r query m r1 e :
  effect r query m = Return (r1, e) →
  heap r !! cleanup_media e = None
  ∧ ∃ mql, heap r1 !! cleanup_media e = Some mql
           ∧ listeners mql = [cleanup_listener e]
           ∧ ∀ k, k ≠ cleanup_media e → heap r1 !! k = heap r !! k.
Proof.
  intros Heff.
  destruct (effect_returns_in_browser _ _ _ _ Heff) as [f Hw].
  rewrite (effect_in_browser r f query m Hw) in Heff.
  injection Heff as <- <-. cbn -[CHANGE].
  split; [apply fresh_ref_unused|]. eexists.
  split; [apply lookup_insert_eq|]. split; [done|].
  by intros k Hk; rewrite lookup_insert_ne.
Qed.

(** C3: when the effect of [useMediaQuery] runs it subscribes exactly one
    'change' listener on the media-query list obtained from
    [window.matchMedia(query)], and the cleanup it returns removes exactly
    that listener: right after the effect the list is left without
    listeners, at any later time every other listener of the list stays
    registered in its order, and nothing else about the list, the other
    lists or the window is changed. *)
Theorem useMediaQuery_effect_subscribes_cleanup_unsubscribes
    r query m r1 e :
  effect r query m = Return (r1, e) →
  heap r !! cleanup_media e = None
  ∧ (cleanup_listener e).1 = CHANGE
  ∧ (∃ b, heap r1 !! cleanup_media e
          = Some {| media := query; matches := b;
                    listeners := [cleanup_listener e] |}
          ∧ setMatches e = (if decide (b ≠ m) then Some b else None)
          ∧ heap (cleanup r1 e)
            = <[cleanup_media e := {| media := query; matches := b;
                                      listeners := [] |}]> (heap r))
  ∧ (∀ k, k ≠ cleanup_media e → heap r1 !! k = heap r !! k)
  ∧ window r1 = window r
  ∧ (∀ r2 mql,
       heap r2 !! cleanup_media e = Some mql →
       heap (cleanup r2 e)
       = <[cleanup_media e :=
             {| media := media mql; matches := matches mql;
                listeners :=
                  filter (λ l', l' ≠ cleanup_listener e) (listeners mql) |}]>
           (heap r2)
       ∧ (cleanup_listener e
            ∉ filter (λ l', l' ≠ cleanup_listener e) (listeners mql))
       ∧ window (cleanup r2 e) = window r2
       ∧ next_closure (cleanup r2 e) = next_closure r2).
Proof.
  intros Heff.
  destruct (effect_returns_in_browser _ _ _ _ Heff) as [f Hw].
  rewrite (effect_in_browser r f query m Hw) in Heff.
  injection Heff as <- <-. cbn -[CHANGE cleanup].
  split; [apply fresh_ref_unused|]. split; [done|]. split.
  { exists (f query). rewrite lookup_insert_eq. split; [done|]. split; [done|].
    unfold cleanup.
    erewrite removeEventListener_heap
      by (cbn -[CHANGE]; apply lookup_insert_eq).
    cbn -[CHANGE]. rewrite insert_insert_eq. do 2 f_equal.
    case_decide as Hne; [by destruct Hne|done]. }
  split; [by intros k Hk; rewrite lookup_insert_ne|]. split; [done|].
  intros r2 mql Hmql. unfold cleanup.
  split; [by apply removeEventListener_heap|].
  split; [apply filter_remove_absent|done].
Qed.

Lemma useMediaQuery_effect_subscribes_cleanup_unsubscribes_witness :
  match effect demo_realm MOBILE_QUERY false with
  | Return (r1, e) =>
      heap demo_realm !! cleanup_media e = None
      ∧ (cleanup_listener e).1 = CHANGE
      ∧ (∃ b, heap r1 !! cleanup_media e
              = Some {| media := MOBILE_QUERY; matches := b;
                        listeners := [cleanup_listener e] |}
              ∧ setMatches e = (if decide (b ≠ false) then Some b else None)
              ∧ heap (cleanup r1 e)
                = <[cleanup_media e := {| media := MOBILE_QUERY; matches := b;
                                          listeners := [] |}]>
                    (heap demo_realm))
      ∧ (∀ k, k ≠ cleanup_media e → heap r1 !! k = heap demo_realm !! k)
      ∧ window r1 = window demo_realm
      ∧ (∀ r2 mql,
           heap r2 !! cleanup_media e = Some mql →
           heap (cleanup r2 e)
           = <[cleanup_media e :=
                 {| media := media mql; matches := matches mql;
                    listeners :=
                      filter (λ l', l' ≠ cleanup_listener e)
                             (listeners mql) |}]>
               (heap r2)
           ∧ (cleanup_listener e
                ∉ filter (λ l', l' ≠ cleanup_listener e) (listeners mql))
           ∧ window (cleanup r2 e) = window r2
           ∧ next_closure (cleanup r2 e) = next_closure r2)
  | Throw _ => False
  end.
Proof.
  destruct (effect demo_realm MOBILE_QUERY false) as [[r1 e]|err] eqn:Heff.
  - exact (useMediaQuery_effect_subscribes_cleanup_unsubscribes
             demo_realm MOBILE_QUERY false r1 e Heff).
  - rewrite (effect_in_browser demo_realm (λ _, true)) in Heff
      by reflexivity.
    discriminate Heff.
Defined.

(** C4: the effect body calls [window.matchMedia] with no guard.  Run
    where the [window] object does not exist, the effect reaches the access
    and throws (a [ReferenceError]); run where [window] has no [matchMedia],
    the call throws (a [TypeError]); no fallback branch exists, so the
    effect completes normally only where the browser API is present.  The
    statement is about the effect body, for every query and state: whether
    a renderer runs the effect at all is the renderer's matter (a server
    renderer does not). *)
Theorem useMediaQuery_effect_unguarded r query m :
  effect (with_window None r) query m = Throw ReferenceError
  ∧ effect (with_window (Some {| matchMedia := None |}) r) query m
    = Throw TypeError
  ∧ (∀ out, effect r query m = Return out →
            ∃ f, window r = Some {| matchMedia := Some f |}).
Proof.
  split; [reflexivity|]. split; [reflexivity|].
  intros out. apply effect_returns_in_browser.
Qed.

(** *** The life of a mounted hook

    Relative to the realm [r0] the component was mounted in: the lists of
    [r0] are as they were, the list of the last effect was created by the
    hook and holds its listener alone, and no other list created since
    holds a listener. *)
Definition subscribed_only_last (r0 r : realm) (i : instance) : Prop :=
  (∀ k m, heap r0 !! k = Some m → heap r !! k = Some m)
  ∧ heap r0 !! cleanup_media (last_effect i) = None
  ∧ (∃ m, heap r !! cleanup_media (last_effect i) = Some m
          ∧ listeners m = [cleanup_listener (last_effect i)])
  ∧ (∀ k m, heap r !! k = Some m → heap r0 !! k = None →
            k ≠ cleanup_media (last_effect i) → listeners m = []).

Lemma run_effect_return r query b r' i :
  run_effect r query b = Return (r', i) →
  ∃ e, effect r query b = Return (r', e) ∧ last_effect i = e.
Proof.
  unfold run_effect, bind.
  destruct (effect r query b) as [[r1 e]|]; [|done].
  intros [= <- <-]. eauto.
Qed.

(** Running the effect after the previous cleanup keeps the invariant. *)
Lemma run_effect_subscribed r0 r query b r' i :
  (∀ k m, heap r0 !! k = Some m → heap r !! k = Some m) →
  (∀ k m, heap r !! k = Some m → heap r0 !! k = None →
          listeners m = []) →
  run_effect r query b = Return (r', i) →
  subscribed_only_last r0 r' i.
Proof.
  intros Hold Hnew (e & Heff & He)%run_effect_return.
  unfold subscribed_only_last. rewrite He.
  destruct (effect_creates_one_subscription _ _ _ _ _ Heff)
    as (Hfresh & m & Hm & Hl & Hother).
  split; [|split; [|split]].
  - intros k mk Hk. rewrite Hother; [by apply Hold|].
    intros ->. apply Hold in Hk. congruence.
  - destruct (heap r0 !! cleanup_media e) as [m0|] eqn:H0; [|done].
    apply Hold in H0. congruence.
  - by exists m.
  - intros k mk Hk H0 Hne. rewrite Hother in Hk by done. eauto.
Qed.

Lemma cleanup_subscribed r0 r i :
  subscribed_only_last r0 r i →
  (∀ k m, heap r0 !! k = Some m →
          heap (cleanup r (last_effect i)) !! k = Some m)
  ∧ (∀ k m, heap (cleanup r (last_effect i)) !! k = Some m →
            heap r0 !! k = None → listeners m = []).
Proof.
  intros (Hold & Hfresh & (ml & Hml & Hl) & Hnew).
  unfold cleanup. rewrite (removeEventListener_heap _ _ _ _ Hml).
  split.
  - intros k m Hk. rewrite lookup_insert_ne; [by apply Hold|].
    intros <-. congruence.
  - intros k m Hk H0.
    destruct (decide (k = cleanup_media (last_effect i))) as [->|Hne].
    + rewrite lookup_insert_eq in Hk. injection Hk as <-. cbn.
      rewrite Hl. cbn. case_decide as Hd; [by destruct Hd|done].
    + rewrite lookup_insert_ne in Hk by done. eauto.
Qed.

Lemma render_subscribed r0 r i query r' i' :
  subscribed_only_last r0 r i →
  (render r (Some i) query).2 = Return (r', i') →
  subscribed_only_last r0 r' i'.
Proof.
  intros Hinv. cbn. case_decide.
  - by intros [= <- <-].
  - destruct (cleanup_subscribed _ _ _ Hinv) as [Hold Hnew].
    by apply run_effect_subscribed.
Qed.

Lemma renders_subscribed r0 r i queries r' i' :
  subscribed_only_last r0 r i →
  renders r i queries = Return (r', i') →
  subscribed_only_last r0 r' i'.
Proof.
  revert r i. induction queries as [|q queries IH]; intros r i Hinv Hrun.
  - by injection Hrun as <- <-.
  - cbn [renders] in Hrun.
    destruct (render r (Some i) q).2 as [[r1 i1]|] eqn:Hr; [|done].
    eapply IH; [|exact Hrun]. by eapply render_subscribed.
Qed.

(** X1: from mounting to unmounting, through any renders: afterwards every
    media-query list that existed before is as it was, and no list the hook
    created holds a listener. *)
Theorem useMediaQuery_leaves_no_listener r0 query queries r1 i1 r2 i2 :
  (render r0 None query).2 = Return (r1, i1) →
  renders r1 i1 queries = Return (r2, i2) →
  (∀ k m, heap r0 !! k = Some m → heap (unmount r2 i2) !! k = Some m)
  ∧ (∀ k m, heap (unmount r2 i2) !! k = Some m → heap r0 !! k = None →
            listeners m = []).
Proof.
  cbn. intros Hmount Hrenders. apply cleanup_subscribed.
  eapply renders_subscribed; [|done].
  eapply run_effect_subscribed; [| |done]; [done|].
  intros k m Hk H0. congruence.
Qed.

(** The mobile query in a window that matches it: the first effect sets the
    state, the next render subscribes anew, the third changes nothing. *)
Lemma useMediaQuery_leaves_no_listener_witness :
  ∃ r1 i1 r2 i2,
    (render demo_realm None MOBILE_QUERY).2 = Return (r1, i1)
    ∧ renders r1 i1 [MOBILE_QUERY; MOBILE_QUERY] = Return (r2, i2)
    ∧ matches_state i2 = true
    ∧ (∀ k m, heap demo_realm !! k = Some m →
              heap (unmount r2 i2) !! k = Some m)
    ∧ (∀ k m, heap (unmount r2 i2) !! k = Some m →
              heap demo_realm !! k = None → listeners m = []).
Proof.
  eexists _, _, _, _.
  split; [vm_compute; reflexivity|].
  split; [vm_compute; reflexivity|].
  split; [reflexivity|].
  exact (useMediaQuery_leaves_no_listener
           demo_realm MOBILE_QUERY [MOBILE_QUERY; MOBILE_QUERY]
           _ _ _ _ eq_refl eq_refl).
Defined.

(* --------------------------------------------------------------------- *)
(** *** The state settles *)
(* --------------------------------------------------------------------- *)

(** In a browser the effect leaves the state at what the media-query list
    reports, whatever the state was. *)
Lemma run_effect_in_browser r f query b :
  window r = Some {| matchMedia := Some f |} →
  ∃ r' i', run_effect r query b = Return (r', i')
           ∧ window r' = window r
           ∧ matches_state i' = f query
           ∧ deps i' = (b, query).
Proof.
  intros Hw. unfold run_effect.
  rewrite (effect_in_browser r f query b Hw). cbn -[CHANGE].
  eexists _, _. split; [done|]. split; [done|]. split; [|done].
  cbn. case_decide as Hne; [done|].
  destruct (f query), b; try done; by destruct Hne.
Qed.

Lemma cleanup_window r e : window (cleanup r e) = window r.
Proof. done. Qed.

(** X9: in a browser whose answer to the query is [f query], the first
    render returns [false], the second returns [f query], and from then on
    a render with the same query changes nothing: the state has settled
    after at most two runs of the effect. *)
Theorem useMediaQuery_settles r f query :
  window r = Some {| matchMedia := Some f |} →
  ∃ r1 i1 r2 i2,
    render r None query = (false, Return (r1, i1))
    ∧ render r1 (Some i1) query = (f query, Return (r2, i2))
    ∧ render r2 (Some i2) query = (f query, Return (r2, i2)).
Proof.
  intros Hw.
  destruct (run_effect_in_browser r f query false Hw)
    as (r1 & i1 & Hmount & Hw1 & Hm1 & Hd1).
  exists r1, i1. unfold render at 1. rewrite Hmount.
  unfold render. rewrite Hd1, Hm1.
  destruct (f query) eqn:Hf.
  - (* the query matches: the state changed, the effect runs once more *)
    rewrite decide_False by done.
    destruct (run_effect_in_browser (cleanup r1 (last_effect i1)) f query
                true) as (r2 & i2 & Hre & Hw2 & Hm2 & Hd2).
    { by rewrite cleanup_window, Hw1. }
    rewrite Hf in Hm2. exists r2, i2. rewrite Hre, Hd2, Hm2.
    split; [done|]. split; [done|]. by rewrite decide_True.
  - (* the query does not match: the initial state was right *)
    exists r1, i1. rewrite Hd1, Hm1, decide_True by done. done.
Qed.

Lemma useMediaQuery_settles_witness :
  ∃ r1 i1 r2 i2,
    render demo_realm None MOBILE_QUERY = (false, Return (r1, i1))
    ∧ render r1 (Some i1) MOBILE_QUERY = (true, Return (r2, i2))
    ∧ render r2 (Some i2) MOBILE_QUERY = (true, Return (r2, i2)).
Proof.
  exact (useMediaQuery_settles demo_realm (λ _, true) MOBILE_QUERY eq_refl).
Defined.

(* --------------------------------------------------------------------- *)
(** *** The predefined breakpoints *)
(* --------------------------------------------------------------------- *)

Definition TABLET_QUERY : jsstring :=
  js "(min-width: 769px) and (max-width: 1024px)".

Definition DESKTOP_QUERY : jsstring := js "(min-width: 1025px)".

(** [useIsMobile()], [useIsTablet()] and [useIsDesktop()] *)
Definition useIsMobile (r : realm) (i : option instance) :=
  render r i MOBILE_QUERY.

Definition useIsTablet (r : realm) (i : option instance) :=
  render r i TABLET_QUERY.

Definition useIsDesktop (r : realm) (i : option instance) :=
  render r i DESKTOP_QUERY.

(** The width features of the three queries, with their bounds in CSS
    pixels, and a query as the conjunction ("and") of its features. *)
Inductive width_feature : Type :=
  | MaxWidth (px : Z)
  | MinWidth (px : Z).

Definition feature_text (f : width_feature) : jsstring :=
  match f with
  | MaxWidth px => js ("(max-width: " +:+ pretty px +:+ "px)")
  | MinWidth px => js ("(min-width: " +:+ pretty px +:+ "px)")
  end.

Definition query_text (q : list width_feature) : jsstring :=
  join (js " and ") (feature_text <$> q).

(** The browser's evaluation against a viewport of the given width, which
    need not be a whole number of pixels: both bounds are inclusive. *)
Definition feature_matches (width : Q) (f : width_feature) : bool :=
  match f with
  | MaxWidth px => Qle_bool width (inject_Z px)
  | MinWidth px => Qle_bool (inject_Z px) width
  end.

Definition query_matches (width : Q) (q : list width_feature) : bool :=
  forallb (feature_matches width) q.

Definition mobile : list width_feature := [MaxWidth 768].
Definition tablet : list width_feature := [MinWidth 769; MaxWidth 1024].
Definition desktop : list width_feature := [MinWidth 1025].

(** The three structured queries are the literals the hooks pass. *)
Lemma breakpoint_texts :
  query_text mobile = MOBILE_QUERY
  ∧ query_text tablet = TABLET_QUERY
  ∧ query_text desktop = DESKTOP_QUERY.
Proof. by vm_compute. Qed.

Lemma Qle_bool_inject_r (width : Q) (px : Z) :
  Qle_bool width (inject_Z px) = true ↔ Qnum width <= px * Z.pos (Qden width).
Proof.
  rewrite Qle_bool_iff. unfold Qle, inject_Z. cbn [Qnum Qden]. lia.
Qed.

Lemma Qle_bool_inject_l (width : Q) (px : Z) :
  Qle_bool (inject_Z px) width = true ↔ px * Z.pos (Qden width) <= Qnum width.
Proof.
  rewrite Qle_bool_iff. unfold Qle, inject_Z. cbn [Qnum Qden]. lia.
Qed.

(** X10: for every viewport width at most one of the mobile, tablet and
    desktop queries matches; none matches exactly when the width lies
    strictly between 768 and 769 or strictly between 1024 and 1025 pixels,
    so at every whole number of pixels exactly one matches. *)
Theorem breakpoints_partition (width : Q) :
  query_matches width mobile && query_matches width tablet = false
  ∧ query_matches width mobile && query_matches width desktop = false
  ∧ query_matches width tablet && query_matches width desktop = false
  ∧ (query_matches width mobile || query_matches width tablet
       || query_matches width desktop = false
     ↔ (768 < width ∧ width < 769)%Q ∨ (1024 < width ∧ width < 1025)%Q)
  ∧ (∀ n : Z, Qeq width (inject_Z n) →
       query_matches width mobile || query_matches width tablet
         || query_matches width desktop = true).
Proof.
  unfold query_matches, mobile, tablet, desktop.
  cbn [forallb feature_matches]. rewrite !andb_true_r.
  pose proof (Qle_bool_inject_r width 768) as Hm.
  pose proof (Qle_bool_inject_l width 769) as Ht1.
  pose proof (Qle_bool_inject_r width 1024) as Ht2.
  pose proof (Qle_bool_inject_l width 1025) as Hd.
  assert ((768 < width)%Q ↔ 768 * Z.pos (Qden width) < Qnum width) as H768.
  { unfold Qlt. cbn [Qnum Qden]. lia. }
  assert ((width < 769)%Q ↔ Qnum width < 769 * Z.pos (Qden width)) as H769.
  { unfold Qlt. cbn [Qnum Qden]. lia. }
  assert ((1024 < width)%Q ↔ 1024 * Z.pos (Qden width) < Qnum width)
    as H1024.
  { unfold Qlt. cbn [Qnum Qden]. lia. }
  assert ((width < 1025)%Q ↔ Qnum width < 1025 * Z.pos (Qden width))
    as H1025.
  { unfold Qlt. cbn [Qnum Qden]. lia. }
  assert (∀ n : Z, Qeq width (inject_Z n) →
                   ∀ k, (n <= k → Qnum width <= k * Z.pos (Qden width))
                        ∧ (k <= n → k * Z.pos (Qden width) <= Qnum width))
    as Hint.
  { intros n. unfold Qeq, inject_Z. cbn [Qnum Qden]. intros Hn k. nia. }
  rewrite H768, H769, H1024, H1025. clear H768 H769 H1024 H1025.
  repeat match goal with
         | |- context [Qle_bool ?a ?b] =>
             let E := fresh "E" in
             destruct (Qle_bool a b) eqn:E
         end;
    repeat match goal with
           | H : true = true ↔ _ |- _ =>
               apply proj1 in H; specialize (H eq_refl)
           | H : false = true ↔ ?P |- _ =>
               assert (¬ P) by (intros HP; apply H in HP; discriminate);
               clear H
           end;
    cbn [andb orb];
    (split; [first [done|lia]|]); (split; [first [done|lia]|]);
    (split; [first [done|lia]|]);
    (split;
     [split; [intros Hnone; first [discriminate Hnone|lia]
             |intros Hgap; first [done|lia]]
     |intros n Hn; try done;
      pose proof (Hint n Hn 768); pose proof (Hint n Hn 769);
      pose proof (Hint n Hn 1024); pose proof (Hint n Hn 1025); lia]).
Qed.

(* --------------------------------------------------------------------- *)
(** *** Change events *)
(* --------------------------------------------------------------------- *)

(** The browser re-evaluates the media-query list [target] to
    [now_matches] and dispatches 'change': the listeners registered on the
    list are called.  The listener of the hook, [() =>
    setMatches(media.matches)], reads the list it captured, which is the
    list the cleanup holds. *)
Definition dispatch_change
    (r : realm) (target : nat) (now_matches : bool) (i : instance)
  : realm * instance :=
  match heap r !! target with
  | Some m =>
      let r' :=
        with_heap (<[target := {| media := media m; matches := now_matches;
                                  listeners := listeners m |}]> (heap r)) r in
      if decide (target = cleanup_media (last_effect i)
                 ∧ cleanup_listener (last_effect i) ∈ listeners m)
      then (r', {| matches_state := now_matches; deps := deps i;
                   last_effect := last_effect i |})
      else (r', i)
  | None => (r, i)
  end.

(** X11: the state follows the change events of the list of the last
    effect exactly while the hook is subscribed: after the effect a change
    of that list to [b] sets the state to [b] and touches no listener, and
    once the cleanup has run the same event leaves the state as it is. *)
Theorem useMediaQuery_follows_change_until_cleanup r query m r1 i1 b :
  run_effect r query m = Return (r1, i1) →
  (dispatch_change r1 (cleanup_media (last_effect i1)) b i1).2
  = {| matches_state := b; deps := deps i1; last_effect := last_effect i1 |}
  ∧ (∀ mql, heap r1 !! cleanup_media (last_effect i1) = Some mql →
       heap (dispatch_change r1 (cleanup_media (last_effect i1)) b i1).1
         !! cleanup_media (last_effect i1)
       = Some {| media := media mql; matches := b;
                 listeners := listeners mql |})
  ∧ (dispatch_change (unmount r1 i1) (cleanup_media (last_effect i1)) b i1).2
    = i1.
Proof.
  intros (e & Heff & He)%run_effect_return. rewrite He.
  destruct (effect_creates_one_subscription _ _ _ _ _ Heff)
    as (_ & mql & Hmql & Hl & _).
  split; [|split].
  - unfold dispatch_change. rewrite Hmql, He.
    rewrite decide_True; [done|].
    split; [done|]. rewrite Hl. apply list_elem_of_singleton. done.
  - intros mql' Hmql'. unfold dispatch_change. rewrite Hmql', He.
    case_decide; cbn; by rewrite lookup_insert_eq.
  - unfold unmount, cleanup, dispatch_change. rewrite He.
    rewrite (removeEventListener_heap _ _ _ _ Hmql), lookup_insert_eq.
    cbn [listeners]. rewrite decide_False; [done|].
    intros [_ Hin]. by apply filter_remove_absent in Hin.
Qed.

Lemma useMediaQuery_follows_change_until_cleanup_witness :
  ∃ r1 i1,
    run_effect demo_realm MOBILE_QUERY false = Return (r1, i1)
    ∧ matches_state i1 = true
    ∧ matches_state
        (dispatch_change r1 (cleanup_media (last_effect i1)) false i1).2
      = false
    ∧ (dispatch_change (unmount r1 i1) (cleanup_media (last_effect i1))
         false i1).2 = i1.
Proof.
  destruct (run_effect demo_realm MOBILE_QUERY false) as [[r1 i1]|err]
    eqn:Hrun; [|by vm_compute in Hrun].
  exists r1, i1. split; [done|].
  pose proof (useMediaQuery_follows_change_until_cleanup
                demo_realm MOBILE_QUERY false r1 i1 false Hrun)
    as (Hstate & _ & Hafter).
  split; [|split; [by rewrite Hstate|exact Hafter]].
  vm_compute in Hrun. by injection Hrun as _ <-.
Defined.

End MediaQuery.

(* ===================================================================== *)
(** ** [useDebounce] of [hooks/useDebounce.ts] *)
(* ===================================================================== *)

Module Debounce.

(** The default of the [delay] parameter, in milliseconds. *)
Definition DEFAULT_DELAY : Z := 500.

(** The largest delay a host timer keeps: [2^31 - 1] ms. *)
Definition MAX_DELAY : Z := 2147483647.

(** *** The timers of the host

    [setTimeout] belongs to the host.  What the hook depends on is how long
    the host waits, at least, before it runs a callback registered with a
    requested delay; that function of the delay is the parameter
    [timer_delay]. *)
Class TimerHost : Type := timer_delay : Z → Z.

(** A host that waits at least the requested delay, for every delay from 0
    to [MAX_DELAY]. *)
Definition keeps_delay (host : TimerHost) : Prop :=
  ∀ d, 0 <= d <= MAX_DELAY → d <= timer_delay d.

(** The conversion of an integer to a signed 32-bit integer (WebIDL
    [long]): modulo [2^32], into the range from [-2^31] to [2^31 - 1]. *)
Definition to_int32 (z : Z) : Z := (z + 2 ^ 31) mod 2 ^ 32 - 2 ^ 31.

(** A browser (the timer initialisation steps of the HTML Standard): the
    delay is converted to a [long], and a negative delay becomes 0. *)
Definition html_timer_delay (delay : Z) : Z := Z.max 0 (to_int32 delay).

(** Node.js: a delay outside [1 .. MAX_DELAY] becomes 1. *)
Definition node_timer_delay (delay : Z) : Z :=
  if (1 <=? delay) && (delay <=? MAX_DELAY) then delay else 1.

Section Hook.

(** The type of the debounced value.  Dependencies are compared with
    [Object.is], a decidable equality. *)
Context {T : Type} `{EqDecision T}.

(** The host the component runs on. *)
Context {host : TimerHost}.

(** A pending timer of the event loop: the time it is due at and the value
    captured by its callback [() => setDebouncedValue(value)]. *)
Record timer : Type := {
  due : Z;
  captured : T;
}.

(** A mounted instance of the hook: the state cell [debouncedValue], the
    dependency array [value, delay] of the last effect, and the [handler]
    captured by the cleanup of that effect. *)
Record instance : Type := {
  debouncedValue : T;
  dep_value : T;
  dep_delay : Z;
  handler : nat;
}.

(** The clock, the timer table of the event loop, the next timer handle,
    and the hook instance while the component is mounted. *)
Record world : Type := {
  now : Z;
  timers : gmap nat timer;
  next_handle : nat;
  hook : option instance;
}.

Definition init : world :=
  {| now := 0; timers := ∅; next_handle := 0; hook := None |}.

Definition with_hook (w : world) (i : option instance) : world :=
  {| now := now w; timers := timers w; next_handle := next_handle w;
     hook := i |}.

(** [setTimeout(() => setDebouncedValue(value), delay)]: a new handle, and
    a timer due once the host has waited for the delay. *)
Definition setTimeout (w : world) (value : T) (delay : Z) : world * nat :=
  ({| now := now w;
      timers := <[next_handle w := {| due := now w + timer_delay delay;
                                      captured := value |}]> (timers w);
      next_handle := S (next_handle w);
      hook := hook w |},
   next_handle w).

(** [clearTimeout(handler)]: nothing happens when the timer is gone. *)
Definition clearTimeout (w : world) (h : nat) : world :=
  {| now := now w; timers := delete h (timers w);
     next_handle := next_handle w; hook := hook w |}.

(** [setDebouncedValue(v)] *)
Definition setDebouncedValue (w : world) (v : T) : world :=
  match hook w with
  | Some i =>
      with_hook w (Some {| debouncedValue := v; dep_value := dep_value i;
                           dep_delay := dep_delay i; handler := handler i |})
  | None => w
  end.

(** A render of [useDebounce(value, delay)] and the effects it commits.
    On the first render the state starts at [value] and the effect runs; on a
    later render the effect runs again only when [value] or [delay] changed,
    after the cleanup of the previous effect. *)
Definition render (w : world) (value : T) (delay : option Z) : world :=
  let delay := default DEFAULT_DELAY delay in
  match hook w with
  | None =>
      let '(w, h) := setTimeout w value delay in
      with_hook w (Some {| debouncedValue := value; dep_value := value;
                           dep_delay := delay; handler := h |})
  | Some i =>
      if decide (dep_value i = value ∧ dep_delay i = delay) then w
      else
        let w := clearTimeout w (handler i) in
        let '(w, h) := setTimeout w value delay in
        with_hook w (Some {| debouncedValue := debouncedValue i;
                             dep_value := value; dep_delay := delay;
                             handler := h |})
  end.

(** Unmounting runs the cleanup of the last effect. *)
Definition unmount (w : world) : option world :=
  match hook w with
  | Some i => Some (with_hook (clearTimeout w (handler i)) None)
  | None => None
  end.

(** The event loop runs the callback of a timer that is due; the timer is
    gone afterwards. *)
Definition fire (w : world) (h : nat) : option world :=
  match timers w !! h with
  | Some t =>
      if decide (due t <= now w)
      then Some (setDebouncedValue (clearTimeout w h) (captured t))
      else None
  | None => None
  end.

(** What can happen to a component that uses the hook. *)
Inductive event : Type :=
  | Render (value : T) (delay : option Z)
  | Unmount
  | Advance (ms : N)
  | Fire (h : nat).

(** One event; [None] when the event cannot happen in this state. *)
Definition step (w : world) (e : event) : option world :=
  match e with
  | Render value delay => Some (render w value delay)
  | Unmount => unmount w
  | Advance ms =>
      Some {| now := now w + Z.of_N ms; timers := timers w;
              next_handle := next_handle w; hook := hook w |}
  | Fire h => fire w h
  end.

Fixpoint run (es : list event) (w : world) : option world :=
  match es with
  | [] => Some w
  | e :: es' => w' ← step w e; run es' w'
  end.

(** The value the hook returns at a render. *)
Definition returned (w : world) : option T := debouncedValue <$> hook w.

(** The time that passes during a trace. *)
Definition elapsed (es : list event) : Z :=
  foldr (λ e acc, match e with Advance ms => Z.of_N ms + acc | _ => acc end)
        0 es.

(** A stretch of a trace without a new input: time passes, and renders
    repeat the value [v] and the delay [d]. *)
Definition quiet (v : T) (d : Z) (es : list event) : Prop :=
  Forall (λ e, match e with
               | Advance _ => True
               | Render v' d' => v' = v ∧ default DEFAULT_DELAY d' = d
               | _ => False
               end) es.

(** The input of the latest render of a trace, with its delay; none once
    the component has unmounted. *)
Definition last_input (es : list event) : option (T * Z) :=
  foldl (λ acc e, match e with
                  | Render v d => Some (v, default DEFAULT_DELAY d)
                  | Unmount => None
                  | _ => acc
                  end) None es.

(** The claim of the specification, for a host: the returned value changes
    only when a timer fires, and then to the input of a render since which
    the requested delay has passed without another input. *)
Definition updates_only_after_delay : Prop :=
  ∀ es w e w' a b,
    run es init = Some w → step w e = Some w' →
    returned w = Some a → returned w' = Some b → a ≠ b →
    ∃ h es1 d es2,
      e = Fire h
      ∧ es = es1 ++ Render b d :: es2
      ∧ quiet b (default DEFAULT_DELAY d) es2
      ∧ default DEFAULT_DELAY d <= elapsed es2.

End Hook.

Arguments timer T : clear implicits.
Arguments instance T : clear implicits.
Arguments world T : clear implicits.
Arguments event T : clear implicits.
Arguments updates_only_after_delay T {_} host.

(** The browser as the host of the examples. *)
#[local] Instance html_host : TimerHost := html_timer_delay.

(** Typing "a", then "ab" 100 ms later, then nothing for 300 ms. *)
Definition typing : list (event string) :=
  [Render "a" (Some 300); Advance 100; Render "ab" (Some 300); Advance 300].

(** Typing "a", then "b" with a delay of [2^31] ms. *)
Definition long_delay : list (event string) :=
  [Render "a" (Some 300); Render "b" (Some 2147483648)].

Example typing_superseded_timer_gone :
  (w ← run typing init; Some (fire w 0)) = Some None.
Proof. vm_compute. reflexivity. Qed.

Example typing_debounced :
  (w ← run (typing ++ [Fire 1]) init; returned w) = Some "ab".
Proof. vm_compute. reflexivity. Qed.

(** *** Hosts *)

Lemma to_int32_in_range z : - 2 ^ 31 <= z < 2 ^ 31 → to_int32 z = z.
Proof. intros Hz. unfold to_int32. rewrite Z.mod_small; lia. Qed.

Lemma html_keeps_delay : keeps_delay html_timer_delay.
Proof.
  intros d Hd. unfold timer_delay, html_timer_delay, MAX_DELAY in *.
  rewrite to_int32_in_range; lia.
Qed.

Lemma node_keeps_delay : keeps_delay node_timer_delay.
Proof.
  intros d Hd. unfold timer_delay, node_timer_delay, MAX_DELAY in *.
  destruct (Z.leb_spec 1 d), (Z.leb_spec d 2147483647); cbn; lia.
Qed.

(** In a browser a delay within the range is waited for exactly. *)
Lemma html_timer_delay_in_range d :
  0 <= d <= MAX_DELAY → html_timer_delay d = d.
Proof.
  unfold html_timer_delay, MAX_DELAY. intros Hd.
  rewrite to_int32_in_range; lia.
Qed.

(** *** Traces *)

Section Facts.
Context {T : Type} `{EqDecision T} {host : TimerHost}.
Implicit Types (w : world T) (e : event T) (es : list (event T)).
Implicit Types (i : instance T) (t : timer T).

Lemma run_app es1 es2 w : run (es1 ++ es2) w = run es1 w ≫= run es2.
Proof.
  revert w. induction es1 as [|e es1 IH]; intros w; [done|].
  cbn. destruct (step w e) as [w'|]; cbn; [apply IH|done].
Qed.

Lemma run_snoc es e w w' :
  run es w = Some w' → run (es ++ [e]) w = step w' e.
Proof.
  intros Hrun. rewrite run_app, Hrun. cbn.
  by destruct (step w' e).
Qed.

Lemma run_snoc_inv es e w w'' :
  run (es ++ [e]) w = Some w'' →
  ∃ w', run es w = Some w' ∧ step w' e = Some w''.
Proof.
  rewrite run_app. destruct (run es w) as [w'|]; cbn; [|done].
  destruct (step w' e) as [w2|] eqn:Hstep; cbn; [|done].
  intros [= <-]. eauto.
Qed.

Lemma elapsed_app es1 es2 : elapsed (es1 ++ es2) = elapsed es1 + elapsed es2.
Proof.
  induction es1 as [|e es1 IH]; [done|].
  cbn. fold (elapsed (es1 ++ es2)) (elapsed es1). destruct e; lia.
Qed.

(** *** The invariant of the timer table

    A pending timer is the one of the last effect: its handle is the one the
    cleanup holds, its callback carries the current input value, and it was
    set by a render of that value after which the trace was quiet; it is due
    when the host has waited for the delay since the quiet stretch began. *)
Definition pending_ok es w i (h : nat) t : Prop :=
  h = handler i
  ∧ captured t = dep_value i
  ∧ ∃ es1 d es2,
      es = es1 ++ Render (dep_value i) d :: es2
      ∧ default DEFAULT_DELAY d = dep_delay i
      ∧ quiet (dep_value i) (dep_delay i) es2
      ∧ due t = now w - elapsed es2 + timer_delay (dep_delay i).

Definition inv es w : Prop :=
  (∀ h t, timers w !! h = Some t → (h < next_handle w)%nat)
  ∧ match hook w with
    | None => timers w = ∅
    | Some i =>
        (handler i < next_handle w)%nat
        ∧ ∀ h t, timers w !! h = Some t → pending_ok es w i h t
    end.

Lemma inv_init : inv [] init.
Proof. split; [|done]. intros h t. cbn. by rewrite lookup_empty. Qed.

(** A quiet event keeps a pending timer in order. *)
Lemma pending_ok_quiet es w w' i h t e :
  pending_ok es w i h t →
  quiet (dep_value i) (dep_delay i) [e] →
  now w' = now w + elapsed [e] →
  pending_ok (es ++ [e]) w' i h t.
Proof.
  intros (Hh & Hc & es1 & d & es2 & -> & Hd & Hq & Hdue) Hqe Hnow.
  split; [done|]. split; [done|].
  exists es1, d, (es2 ++ [e]).
  split; [by rewrite <- app_assoc|]. split; [done|].
  split; [by apply Forall_app|].
  rewrite elapsed_app. lia.
Qed.

(** The timer set by an effect that has just run. *)
Lemma pending_ok_fresh es w i t v d :
  dep_value i = v →
  dep_delay i = default DEFAULT_DELAY d →
  captured t = v →
  due t = now w + timer_delay (default DEFAULT_DELAY d) →
  pending_ok (es ++ [Render v d]) w i (handler i) t.
Proof.
  intros Hv Hd Hc Hdue.
  split; [done|]. split; [congruence|]. exists es, d, [].
  rewrite Hv, Hd. split; [done|]. split; [done|]. split; [constructor|].
  cbn. lia.
Qed.

Lemma inv_render es w v d :
  inv es w → inv (es ++ [Render v d]) (render w v d).
Proof.
  intros [Hkeys Hhook]. unfold render, setTimeout, clearTimeout, with_hook.
  destruct (hook w) as [i|] eqn:Hi.
  - destruct Hhook as [Hhandler Hpending].
    case_decide as Hdeps.
    + (* the dependencies did not change: no effect runs *)
      split; [done|]. rewrite Hi. split; [done|].
      intros h t Ht. apply pending_ok_quiet with (w := w); auto.
      * constructor; [|constructor]. by destruct Hdeps.
      * cbn. lia.
    + (* cleanup, then the effect *)
      split; simpl.
      * intros h t. destruct (decide (h = next_handle w)) as [->|Hne].
        { intros _. lia. }
        rewrite lookup_insert_ne, lookup_delete_Some by done.
        intros [_ Ht]. apply Hkeys in Ht. lia.
      * split; [lia|]. intros h t.
        destruct (decide (h = next_handle w)) as [->|Hne].
        { rewrite lookup_insert_eq. intros [= <-].
          by apply (pending_ok_fresh es _
                      {| debouncedValue := debouncedValue i; dep_value := v;
                         dep_delay := default DEFAULT_DELAY d;
                         handler := next_handle w |}). }
        rewrite lookup_insert_ne, lookup_delete_Some by done.
        intros [Hh Ht]. by destruct (Hpending h t Ht) as [-> _].
  - (* first render *)
    rewrite Hhook. split; simpl.
    + intros h t. rewrite lookup_insert_Some, lookup_empty.
      intros [[<- _]|[_ [=]]]. lia.
    + split; [lia|]. intros h t. rewrite lookup_insert_Some, lookup_empty.
      intros [[<- <-]|[_ [=]]].
      by apply (pending_ok_fresh es _
                  {| debouncedValue := v; dep_value := v;
                     dep_delay := default DEFAULT_DELAY d;
                     handler := next_handle w |}).
Qed.

Lemma inv_unmount es w w' :
  inv es w → unmount w = Some w' → inv (es ++ [Unmount]) w'.
Proof.
  intros [Hkeys Hhook]. unfold unmount, clearTimeout, with_hook.
  destruct (hook w) as [i|]; [|done]. intros [= <-].
  destruct Hhook as [_ Hpending]. split; simpl.
  - intros h t [_ Ht]%lookup_delete_Some. eauto.
  - apply map_empty. intros h.
    destruct (delete (handler i) (timers w) !! h) as [t|] eqn:Ht; [|done].
    apply lookup_delete_Some in Ht as [Hne Ht].
    by destruct (Hpending h t Ht) as [-> _].
Qed.

Lemma inv_advance es w ms :
  inv es w →
  inv (es ++ [Advance ms])
    {| now := now w + Z.of_N ms; timers := timers w;
       next_handle := next_handle w; hook := hook w |}.
Proof.
  intros [Hkeys Hhook]. split; simpl; [done|].
  destruct (hook w) as [i|]; [|done].
  destruct Hhook as [Hhandler Hpending]. split; [done|].
  intros h t Ht. apply pending_ok_quiet with (w := w); auto.
  - by repeat constructor.
  - cbn. lia.
Qed.

Lemma inv_fire es w h w' :
  inv es w → fire w h = Some w' → inv (es ++ [Fire h]) w'.
Proof.
  intros [Hkeys Hhook].
  unfold fire, setDebouncedValue, clearTimeout, with_hook.
  destruct (timers w !! h) as [t|] eqn:Ht; [|done].
  case_decide; [|done]. simpl.
  destruct (hook w) as [i|]; intros [= <-].
  - destruct Hhook as [Hhandler Hpending].
    destruct (Hpending h t Ht) as [-> _].
    split; simpl.
    + intros h' t' [_ Ht']%lookup_delete_Some. eauto.
    + split; [done|]. intros h' t' [Hne Ht']%lookup_delete_Some.
      by destruct (Hpending h' t' Ht') as [-> _].
  - by rewrite Hhook, lookup_empty in Ht.
Qed.

Lemma inv_step es w e w' :
  inv es w → step w e = Some w' → inv (es ++ [e]) w'.
Proof.
  intros Hinv. destruct e as [v d| |ms|h]; cbn.
  - intros [= <-]. by apply inv_render.
  - by apply inv_unmount.
  - intros [= <-]. by apply inv_advance.
  - by apply inv_fire.
Qed.

(** The invariant holds after every trace from the initial state. *)
Lemma inv_run es w : run es init = Some w → inv es w.
Proof.
  revert w. induction es as [|e es IH] using rev_ind; intros w.
  - intros [= <-]. apply inv_init.
  - intros (w' & Hrun & Hstep)%run_snoc_inv.
    eapply inv_step; eauto.
Qed.

(** A table all of whose keys are one handle holds at most one timer. *)
Lemma size_single_key (m : gmap nat (timer T)) (k : nat) :
  (∀ h t, m !! h = Some t → h = k) → (size m ≤ 1)%nat.
Proof.
  intros Hkeys. destruct (m !! k) as [t|] eqn:Hk.
  - assert (m = {[k := t]}) as ->; [|by rewrite map_size_singleton].
    apply map_eq. intros h. destruct (decide (h = k)) as [->|Hne].
    + by rewrite lookup_singleton_eq.
    + rewrite lookup_singleton_ne by done.
      destruct (m !! h) as [t'|] eqn:Hh; [|done].
      by apply Hkeys in Hh.
  - assert (m = ∅) as ->; [|by rewrite map_size_empty; lia].
    apply map_empty. intros h.
    destruct (m !! h) as [t'|] eqn:Hh; [|done].
    apply Hkeys in Hh as Heq. congruence.
Qed.

Lemma inv_single_timer es w : inv es w → (size (timers w) ≤ 1)%nat.
Proof.
  intros [_ Hhook]. destruct (hook w) as [i|].
  - destruct Hhook as [_ Hpending]. apply (size_single_key _ (handler i)).
    intros h t Ht. by destruct (Hpending h t Ht).
  - rewrite Hhook, map_size_empty. lia.
Qed.

Lemma elapsed_nonneg es : 0 <= elapsed es.
Proof.
  induction es as [|e es IH]; [done|].
  cbn. fold (elapsed es). destruct e; lia.
Qed.

(** The returned value changes only when a timer fires, and then to the
    input value of a render after which the trace stayed quiet for as long
    as the host waits for the delay. *)
Lemma step_update es w e w' a b :
  inv es w → step w e = Some w' →
  returned w = Some a → returned w' = Some b → a ≠ b →
  ∃ h es1 d es2,
    e = Fire h
    ∧ es = es1 ++ Render b d :: es2
    ∧ quiet b (default DEFAULT_DELAY d) es2
    ∧ timer_delay (default DEFAULT_DELAY d) <= elapsed es2.
Proof.
  intros [_ Hhook] Hstep Ha Hb Hab. unfold returned in Ha, Hb.
  destruct (hook w) as [i|] eqn:Hi; [|done].
  destruct Hhook as [_ Hpending]. cbn in Ha. injection Ha as <-.
  destruct e as [v d| |ms|h]; cbn in Hstep.
  - injection Hstep as <-. exfalso. apply Hab.
    unfold render, setTimeout, clearTimeout, with_hook in Hb.
    rewrite Hi in Hb. case_decide.
    + rewrite Hi in Hb. by injection Hb.
    + by injection Hb.
  - unfold unmount in Hstep. rewrite Hi in Hstep.
    by injection Hstep as <-.
  - injection Hstep as <-. cbn in Hb. rewrite Hi in Hb.
    exfalso. apply Hab. by injection Hb.
  - unfold fire, setDebouncedValue, clearTimeout, with_hook in Hstep.
    destruct (timers w !! h) as [t|] eqn:Ht; [|done].
    case_decide as Hdue; [|done]. cbn in Hstep. rewrite Hi in Hstep.
    injection Hstep as <-. cbn in Hb. injection Hb as <-.
    destruct (Hpending h t Ht)
      as (_ & Hc & es1 & d & es2 & Hes & Hd & Hq & Hdue').
    exists h, es1, d, es2. rewrite Hc, Hd.
    split; [done|]. split; [done|]. split; [done|]. lia.
Qed.

(** Handles are never used again: a handle below [next_handle] that is not
    pending stays so. *)
Lemma step_handles w e w' :
  step w e = Some w' →
  (next_handle w ≤ next_handle w')%nat
  ∧ ∀ h, (h < next_handle w)%nat →
         timers w !! h = None → timers w' !! h = None.
Proof.
  destruct e as [v d| |ms|h']; cbn.
  - intros [= <-]. unfold render, setTimeout, clearTimeout, with_hook.
    destruct (hook w) as [i|]; [case_decide|]; simpl;
      (split; [lia|]); intros h Hh Hnone; try done.
    + rewrite lookup_insert_ne by lia.
      by apply lookup_delete_None; right.
    + by rewrite lookup_insert_ne by lia.
  - unfold unmount, clearTimeout, with_hook.
    destruct (hook w) as [i|]; [|done]. intros [= <-]. simpl.
    split; [lia|]. intros h Hh Hnone. by apply lookup_delete_None; right.
  - intros [= <-]. by split.
  - unfold fire, setDebouncedValue, clearTimeout, with_hook.
    destruct (timers w !! h') as [t|]; [|done]. case_decide; [|done].
    simpl. destruct (hook w) as [i|]; intros [= <-]; simpl;
      (split; [lia|]); intros h Hh Hnone; by apply lookup_delete_None; right.
Qed.

Lemma run_handles es w w' :
  run es w = Some w' →
  (next_handle w ≤ next_handle w')%nat
  ∧ ∀ h, (h < next_handle w)%nat →
         timers w !! h = None → timers w' !! h = None.
Proof.
  revert w. induction es as [|e es IH]; intros w; cbn.
  - intros [= <-]. by split.
  - destruct (step w e) as [w1|] eqn:Hstep; cbn; [|done]. intros Hrun.
    destruct (step_handles _ _ _ Hstep) as [Hle Hkeep].
    destruct (IH _ Hrun) as [Hle' Hkeep'].
    split; [lia|]. intros h Hh Hnone. apply Hkeep'; [lia|]. by apply Hkeep.
Qed.

(** The cleanup cancels the timer of the previous effect: when the input
    value or the delay changes, and when the component unmounts. *)
Lemma step_cancels es w e w' i :
  inv es w → step w e = Some w' → hook w = Some i →
  (e = Unmount
   ∨ ∃ v d, e = Render v d
            ∧ ¬ (dep_value i = v
                 ∧ dep_delay i = default DEFAULT_DELAY d)) →
  timers w' !! handler i = None ∧ (handler i < next_handle w')%nat.
Proof.
  intros [_ Hhook] Hstep Hi Hcase. rewrite Hi in Hhook.
  destruct Hhook as [Hhandler _].
  destruct Hcase as [->|(v & d & -> & Hdeps)]; cbn in Hstep.
  - unfold unmount, clearTimeout, with_hook in Hstep. rewrite Hi in Hstep.
    injection Hstep as <-. simpl. by rewrite lookup_delete_eq.
  - injection Hstep as <-.
    unfold render, setTimeout, clearTimeout, with_hook. rewrite Hi.
    case_decide; [done|]. simpl.
    rewrite lookup_insert_ne, lookup_delete_eq by lia. split; [done|lia].
Qed.

(** A timer that is not pending cannot fire. *)
Lemma fire_not_pending w h : timers w !! h = None → fire w h = None.
Proof. intros Hnone. unfold fire. by rewrite Hnone. Qed.


(** A cancelled timer never fires again. *)
Lemma cancelled_forever w' (h : nat) es' w'' :
  timers w' !! h = None → (h < next_handle w')%nat →
  run es' w' = Some w'' →
  timers w'' !! h = None ∧ step w'' (Fire h) = None.
Proof.
  intros Hnone Hlt Hrun.
  destruct (run_handles _ _ _ Hrun) as [_ Hkeep].
  assert (timers w'' !! h = None) as Hgone by auto.
  split; [done|]. by apply fire_not_pending.
Qed.

(** C1, amended: for every sequence of inputs and every delay up to
    [2^31 - 1] ms, on a host that waits at least the requested delay, the
    value returned by [useDebounce] updates only after the delay has
    elapsed without a new input.  After every trace: at most one timer is
    pending; the returned value changes only when that timer fires, and
    then to the value of a render since which the host's waiting time for
    the delay, and so the delay itself when it is at most [2^31 - 1], has
    passed with no other input; a mounted component can unmount, which
    cancels the timer; a render with another value or delay cancels the
    timer of the previous one; and a cancelled timer never fires, so a
    superseded input never becomes the debounced value. *)
Theorem useDebounce_updates_only_after_quiet_delay es w :
  keeps_delay host →
  run es init = Some w →
  (size (timers w) ≤ 1)%nat
  ∧ (∀ e w' a b,
       step w e = Some w' →
       returned w = Some a → returned w' = Some b → a ≠ b →
       ∃ h es1 d es2,
         e = Fire h
         ∧ es = es1 ++ Render b d :: es2
         ∧ quiet b (default DEFAULT_DELAY d) es2
         ∧ timer_delay (default DEFAULT_DELAY d) <= elapsed es2
         ∧ (default DEFAULT_DELAY d <= MAX_DELAY →
            default DEFAULT_DELAY d <= elapsed es2))
  ∧ (∀ i, hook w = Some i →
       ∃ w', step w Unmount = Some w'
             ∧ timers w' = ∅
             ∧ returned w' = None
             ∧ ∀ es' w'', run es' w' = Some w'' →
                 timers w'' !! handler i = None
                 ∧ step w'' (Fire (handler i)) = None)
  ∧ (∀ i v d, hook w = Some i →
       ¬ (dep_value i = v ∧ dep_delay i = default DEFAULT_DELAY d) →
       ∃ w', step w (Render v d) = Some w'
             ∧ returned w' = returned w
             ∧ ∀ es' w'', run es' w' = Some w'' →
                 timers w'' !! handler i = None
                 ∧ step w'' (Fire (handler i)) = None).
Proof.
  intros Hhost Hrun.
  pose proof (inv_run _ _ Hrun) as Hinv.
  split; [by eapply inv_single_timer|].
  split; [|split].
  - intros e w' a b Hstep Ha Hb Hab.
    destruct (step_update _ _ _ _ _ _ Hinv Hstep Ha Hb Hab)
      as (h & es1 & d & es2 & He & Hes & Hq & Hwait).
    exists h, es1, d, es2.
    split; [done|]. split; [done|]. split; [done|]. split; [done|].
    intros Hmax. pose proof (elapsed_nonneg es2) as Hpos.
    destruct (Z_lt_le_dec (default DEFAULT_DELAY d) 0) as [Hneg|Hnonneg];
      [lia|].
    pose proof (Hhost (default DEFAULT_DELAY d) ltac:(lia)). lia.
  - intros i Hi.
    destruct (step w Unmount) as [w'|] eqn:Hstep.
    2:{ cbn in Hstep. unfold unmount in Hstep. by rewrite Hi in Hstep. }
    exists w'. split; [done|].
    destruct (step_cancels _ _ _ _ _ Hinv Hstep Hi (or_introl eq_refl))
      as [Hnone Hlt].
    pose proof (inv_step _ _ _ _ Hinv Hstep) as [_ Hhook'].
    cbn in Hstep. unfold unmount, with_hook in Hstep. rewrite Hi in Hstep.
    injection Hstep as <-. cbn in Hhook'.
    split; [done|]. split; [done|].
    intros es' w'' Hrun'. by eapply cancelled_forever.
  - intros i v d Hi Hdeps. eexists. split; [done|].
    assert (step w (Render v d) = Some (render w v d)) as Hstep by done.
    destruct (step_cancels _ _ _ _ _ Hinv Hstep Hi)
      as [Hnone Hlt]; [right; by exists v, d|].
    split.
    + unfold returned, render, setTimeout, clearTimeout, with_hook.
      rewrite Hi. by rewrite decide_False.
    + intros es' w'' Hrun'. by eapply cancelled_forever.
Qed.

(** *** The latest input *)

Lemma last_input_snoc es e :
  last_input (es ++ [e])
  = match e with
    | Render v d => Some (v, default DEFAULT_DELAY d)
    | Unmount => None
    | _ => last_input es
    end.
Proof. unfold last_input. by rewrite foldl_app. Qed.

(** The dependency array of a mounted hook holds the input of the latest
    render of the trace. *)
Lemma deps_last_input es w :
  run es init = Some w →
  (λ i, (dep_value i, dep_delay i)) <$> hook w = last_input es.
Proof.
  revert w. induction es as [|e es IH] using rev_ind; intros w.
  - by intros [= <-].
  - intros (w0 & Hrun & Hstep)%run_snoc_inv.
    specialize (IH _ Hrun). rewrite last_input_snoc.
    destruct e as [v d| |ms|h]; cbn in Hstep.
    + injection Hstep as <-.
      unfold render, setTimeout, clearTimeout, with_hook.
      destruct (hook w0) as [i|] eqn:Hi; [|done].
      case_decide as Hdeps; [|done].
      rewrite Hi. cbn. by destruct Hdeps as [-> ->].
    + unfold unmount, with_hook in Hstep.
      destruct (hook w0); [|done]. by injection Hstep as <-.
    + by injection Hstep as <-.
    + unfold fire, setDebouncedValue, clearTimeout, with_hook in Hstep.
      destruct (timers w0 !! h) as [t|]; [|done].
      case_decide; [|done]. cbn in Hstep.
      destruct (hook w0) as [i|]; by injection Hstep as <-.
Qed.

(** While the component is mounted and the timer of the last effect is not
    pending, the state is the input of that effect. *)
Definition settled w : Prop :=
  match hook w with
  | Some i => timers w !! handler i = None → debouncedValue i = dep_value i
  | None => True
  end.

Lemma settled_step es w e w' :
  inv es w → settled w → step w e = Some w' → settled w'.
Proof.
  intros [_ Hhook] Hset. unfold settled in *.
  destruct e as [v d| |ms|h]; cbn.
  - intros [= <-]. unfold render, setTimeout, clearTimeout, with_hook.
    destruct (hook w) as [i|] eqn:Hi.
    + case_decide; [by rewrite Hi|]. simpl. by rewrite lookup_insert_eq.
    + simpl. by rewrite lookup_insert_eq.
  - unfold unmount, with_hook. destruct (hook w); [|done].
    by intros [= <-].
  - by intros [= <-].
  - unfold fire, setDebouncedValue, clearTimeout, with_hook.
    destruct (timers w !! h) as [t|] eqn:Ht; [|done].
    case_decide; [|done]. simpl.
    destruct (hook w) as [i|]; intros [= <-]; [|done]. simpl. intros _.
    destruct Hhook as [_ Hpending].
    by destruct (Hpending h t Ht) as (_ & -> & _).
Qed.

Lemma settled_run es w : run es init = Some w → settled w.
Proof.
  revert w. induction es as [|e es IH] using rev_ind; intros w.
  - by intros [= <-].
  - intros (w' & Hrun & Hstep)%run_snoc_inv.
    eapply settled_step; eauto using inv_run.
Qed.

(** X7: after every trace, when no timer is pending, the value the hook
    returns is the input of the latest render of the trace: the value of
    the last [Render] event since the component was mounted. *)
Theorem useDebounce_settled_when_idle es w v dd :
  run es init = Some w → timers w = ∅ → last_input es = Some (v, dd) →
  returned w = Some v.
Proof.
  intros Hrun Hidle Hlast.
  pose proof (settled_run _ _ Hrun) as Hset.
  pose proof (deps_last_input _ _ Hrun) as Hdeps.
  rewrite Hlast in Hdeps. unfold settled, returned in *.
  destruct (hook w) as [i|]; [|done].
  cbn in *. injection Hdeps as <- _. f_equal.
  apply Hset. by rewrite Hidle, lookup_empty.
Qed.

(** The hook holds the input [v] with the delay [dd], and the state is [v]
    already or the timer of [v] is pending and due within [budget]. *)
Definition armed (v : T) (dd budget : Z) w : Prop :=
  ∃ i, hook w = Some i
       ∧ dep_value i = v
       ∧ dep_delay i = dd
       ∧ (debouncedValue i = v
          ∨ ∃ t, timers w !! handler i = Some t
                 ∧ captured t = v
                 ∧ due t <= now w + budget).

Lemma armed_render es w v d :
  inv es w → settled w →
  armed v (default DEFAULT_DELAY d) (timer_delay (default DEFAULT_DELAY d))
        (render w v d).
Proof.
  intros [_ Hhook] Hset. unfold settled in Hset.
  unfold render, setTimeout, clearTimeout, with_hook.
  destruct (hook w) as [i|] eqn:Hi.
  - case_decide as Hdeps.
    + destruct Hdeps as [Hv Hd]. exists i. rewrite Hi.
      split; [done|]. split; [done|]. split; [done|].
      destruct (timers w !! handler i) as [t|] eqn:Ht.
      * right. exists t. split; [done|].
        destruct Hhook as [_ Hpending].
        destruct (Hpending _ _ Ht)
          as (_ & Hc & es1 & d' & es2 & _ & _ & _ & Hdue).
        split; [congruence|].
        pose proof (elapsed_nonneg es2). rewrite <- Hd. lia.
      * left. rewrite <- Hv. by apply Hset.
    + eexists. simpl. split; [done|]. split; [done|]. split; [done|].
      right. eexists. rewrite lookup_insert_eq.
      split; [done|]. split; [done|]. simpl. lia.
  - eexists. simpl. split; [done|]. split; [done|]. split; [done|].
    right. eexists. rewrite lookup_insert_eq.
    split; [done|]. split; [done|]. simpl. lia.
Qed.

Lemma armed_quiet_run v dd es2 : ∀ budget w w',
  armed v dd budget w → quiet v dd es2 → run es2 w = Some w' →
  armed v dd (budget - elapsed es2) w'.
Proof.
  induction es2 as [|e es2 IH]; intros budget w w' Harmed Hq Hrun.
  - injection Hrun as <-. cbn. by rewrite Z.sub_0_r.
  - inversion_clear Hq as [|? ? He Hq'].
    cbn [run] in Hrun.
    destruct (step w e) as [w1|] eqn:Hstep; [|done]. cbn in Hrun.
    destruct Harmed as (i & Hi & Hv & Hd & Hstate).
    destruct e as [v' d'| |ms|h]; try done; cbn in Hstep.
    + (* a render that repeats the input: nothing happens *)
      destruct He as [-> Hd'].
      injection Hstep as <-. unfold render in Hrun. rewrite Hi in Hrun.
      rewrite decide_True in Hrun by (split; congruence).
      replace (budget - elapsed (Render v d' :: es2))
        with (budget - elapsed es2) by (cbn; done).
      eapply IH; [|done|done]. by exists i.
    + (* time passes *)
      injection Hstep as <-.
      replace (budget - elapsed (Advance ms :: es2))
        with ((budget - Z.of_N ms) - elapsed es2).
      2:{ cbn. fold (elapsed es2). lia. }
      eapply IH; [|done|done].
      exists i. simpl. split; [done|]. split; [done|]. split; [done|].
      destruct Hstate as [Hdone|(t & Ht & Hc & Hdue)]; [by left|].
      right. exists t. split; [done|]. split; [done|]. lia.
Qed.

(** X8: once the input has been [v] for as long as the host waits for the
    delay, the debounced value is [v] or becomes [v] at the timer callback,
    which is then enabled: after a render of [v] with the delay [d]
    followed by a quiet stretch of at least [timer_delay d] ms, the hook
    returns [v] already, or its timer can fire, after which the hook
    returns [v] and no timer is left. *)
Theorem useDebounce_catches_up es v d es2 w :
  run (es ++ Render v d :: es2) init = Some w →
  quiet v (default DEFAULT_DELAY d) es2 →
  timer_delay (default DEFAULT_DELAY d) <= elapsed es2 →
  returned w = Some v
  ∨ ∃ h w', step w (Fire h) = Some w'
            ∧ returned w' = Some v
            ∧ timers w' = ∅.
Proof.
  intros Hrun Hq Hlong.
  pose proof (inv_run _ _ Hrun) as [_ Hinv].
  rewrite run_app in Hrun.
  destruct (run es init) as [w0|] eqn:Hrun0; [|done]. cbn in Hrun.
  pose proof (armed_render es w0 v d (inv_run _ _ Hrun0)
                (settled_run _ _ Hrun0)) as Harmed.
  destruct (armed_quiet_run _ _ _ _ _ _ Harmed Hq Hrun)
    as (i & Hi & Hv & Hd & Hstate).
  rewrite Hi in Hinv. destruct Hinv as [_ Hpending].
  destruct Hstate as [Hdone|(t & Ht & Hc & Hdue)].
  { left. unfold returned. rewrite Hi. cbn. by f_equal. }
  right. exists (handler i). cbn. unfold fire. rewrite Ht.
  rewrite decide_True by lia.
  eexists. split; [done|].
  unfold setDebouncedValue, clearTimeout, with_hook, returned. simpl.
  rewrite Hi. simpl. split; [by f_equal|].
  apply map_empty. intros h.
  destruct (delete (handler i) (timers w) !! h) as [t'|] eqn:Ht'; [|done].
  apply lookup_delete_Some in Ht' as [Hne Ht'].
  by destruct (Hpending h t' Ht') as [-> _].
Qed.

End Facts.

(** C1 as stated fails for a delay beyond the range of the host's timers:
    in a browser the delay [2^31] ms is converted to a negative 32-bit
    integer and then to 0, so after typing "a" and then "b" with that delay
    the timer of "b" may fire at once, and "b" becomes the debounced value
    although no time has passed. *)
Lemma useDebounce_delay_beyond_timer_range :
  (∃ w w', run long_delay init = Some w
           ∧ step w (Fire 1) = Some w'
           ∧ returned w = Some "a"
           ∧ returned w' = Some "b"
           ∧ elapsed long_delay = 0)
  ∧ ¬ updates_only_after_delay string html_host.
Proof.
  split.
  { eexists _, _. split; [vm_compute; reflexivity|].
    split; [vm_compute; reflexivity|]. by split. }
  intros Hclaim.
  destruct (Hclaim long_delay _ (Fire 1) _ "a" "b" eq_refl eq_refl
              eq_refl eq_refl ltac:(discriminate))
    as (h & es1 & d & es2 & _ & Hes & _ & Hwait).
  unfold long_delay in Hes.
  destruct es1 as [|e1 [|e2 [|e3 es1]]]; simplify_eq/=. lia.
Qed.

(** Typing "a", then "ab" 100 ms later: the timer of "a" is cancelled, and
    300 ms later the timer of "ab" fires and "ab" becomes the value;
    unmounting instead cancels that timer. *)
Lemma useDebounce_updates_only_after_quiet_delay_witness :
  ∃ (w w' : world string) i,
    run typing init = Some w
    ∧ step w (Fire 1) = Some w'
    ∧ returned w = Some "a"
    ∧ returned w' = Some "ab"
    ∧ (size (timers w) ≤ 1)%nat
    ∧ (∃ h es1 d es2,
         Fire 1 =@{event string} Fire h
         ∧ typing = es1 ++ Render "ab" d :: es2
         ∧ quiet "ab" (default DEFAULT_DELAY d) es2
         ∧ timer_delay (default DEFAULT_DELAY d) <= elapsed es2
         ∧ (default DEFAULT_DELAY d <= MAX_DELAY →
            default DEFAULT_DELAY d <= elapsed es2))
    ∧ hook w = Some i
    ∧ handler i = 1%nat
    ∧ (∃ w1, step w Unmount = Some w1
             ∧ timers w1 = ∅
             ∧ returned w1 = None
             ∧ ∀ es' w'', run es' w1 = Some w'' →
                 timers w'' !! handler i = None
                 ∧ step w'' (Fire (handler i)) = None).
Proof.
  eexists _, _, _.
  split; [vm_compute; reflexivity|].
  split; [vm_compute; reflexivity|].
  split; [reflexivity|]. split; [reflexivity|].
  pose proof (useDebounce_updates_only_after_quiet_delay
                typing _ html_keeps_delay eq_refl)
    as (Hsize & Hupdate & Hunmount & _).
  split; [exact Hsize|].
  split.
  { eapply (Hupdate (Fire 1));
      [reflexivity|reflexivity|reflexivity|discriminate]. }
  split; [reflexivity|]. split; [reflexivity|].
  exact (Hunmount _ eq_refl).
Defined.

Lemma useDebounce_settled_when_idle_witness :
  ∃ w : world string,
    run (typing ++ [Fire 1]) init = Some w
    ∧ last_input (typing ++ [Fire 1]) = Some ("ab", 300)
    ∧ returned w = Some "ab".
Proof.
  eexists.
  split; [vm_compute; reflexivity|]. split; [reflexivity|].
  exact (useDebounce_settled_when_idle
           (typing ++ [Fire 1]) _ "ab" 300 eq_refl eq_refl eq_refl).
Defined.

Lemma useDebounce_catches_up_witness :
  ∃ w : world string,
    run typing init = Some w
    ∧ (returned w = Some "ab"
       ∨ ∃ h w', step w (Fire h) = Some w'
                 ∧ returned w' = Some "ab"
                 ∧ timers w' = ∅).
Proof.
  eexists. split; [vm_compute; reflexivity|].
  apply (useDebounce_catches_up
           [Render "a" (Some 300); Advance 100] "ab" (Some 300)
           [Advance 300]).
  - reflexivity.
  - by repeat constructor.
  - vm_compute. discriminate.
Defined.

End Debounce.

(* ===================================================================== *)
(** ** The endpoints of [lib/constants.ts] *)
(* ===================================================================== *)

Module Constants.
Import JsString.

(** [API_ENDPOINTS.USERS.GET_ALL] *)
Definition GET_ALL : jsstring := js "/api/users".

(** [API_ENDPOINTS.USERS.GET_BY_ID]: the template literal
    [`/api/users/${id}`], which inserts the id as it is. *)
Definition GET_BY_ID (id : jsstring) : jsstring := js "/api/users/" ++ id.

(** X12: the endpoint of a user is the endpoint of all users, a slash and
    the id unchanged; the id is read back by dropping that prefix, so
    different ids have different endpoints, and the empty id gives the
    collection path with a trailing slash. *)
Theorem GET_BY_ID_round_trip (id : jsstring) :
  GET_BY_ID id = GET_ALL ++ js "/" ++ id
  ∧ slice (GET_BY_ID id) (str_length GET_ALL + 1) = id
  ∧ str_length (GET_BY_ID id) = str_length GET_ALL + 1 + str_length id
  ∧ (∀ id', GET_BY_ID id = GET_BY_ID id' → id = id').
Proof.
  split; [done|]. split; [|split].
  - unfold slice, GET_BY_ID, str_length. rewrite length_app.
    change (Z.of_nat (length GET_ALL) + 1 <? 0) with false. cbn beta iota.
    rewrite Z.min_l by (cbn; lia).
    change (Z.to_nat (Z.of_nat (length GET_ALL) + 1)) with 11%nat.
    by rewrite drop_app_length'.
  - unfold GET_BY_ID, str_length. rewrite length_app. cbn. lia.
  - intros id' Heq. by apply app_inv_head in Heq.
Qed.

End Constants.
